(** * The incremental text-to-speech player of smart-teacher-notepad

    A shallow embedding of [src/components/TtsPlayer.tsx] (text segmenter,
    chunk loader, playback controller) and of the prompt construction of
    [generateSpeech] in [src/services/gemini.ts], with the properties of
    the specification stated over it.

    JavaScript strings are sequences of UTF-16 code units; they are modelled
    as lists of code units ([N]), so [length] is the [.length] of the source.
    React state is a record; every effect and every event handler of the
    component is a function on that record, and the values a closure captured
    at render time (the [chunks] and [currentChunkIdx] seen by [onended] and
    by the continuation of [loadNextBuffer]) are stored with the closure. *)

From Stdlib Require Import ZArith NArith QArith Lia String Ascii.
From Stdlib.Strings Require Import Byte.
From stdpp Require Import base list.

Local Open Scope nat_scope.

(** ** JavaScript strings *)

Module JsString.

Abbreviation str := (list N) (only parsing).

(** An ASCII literal as a JavaScript string. *)
Definition js (s : string) : str := map N_of_ascii (list_ascii_of_string s).

(** The code units matched by [\s] and removed by [String.prototype.trim]:
    WhiteSpace and LineTerminator of ECMAScript. *)
Definition isWhiteSpace (c : N) : bool :=
  ((9 <=? c) && (c <=? 13) || (c =? 32) || (c =? 160) || (c =? 5760)
   || (8192 <=? c) && (c <=? 8202) || (c =? 8232) || (c =? 8233)
   || (c =? 8239) || (c =? 8287) || (c =? 12288) || (c =? 65279))%N.

Fixpoint trimStart (s : str) : str :=
  match s with
  | c :: s' => if isWhiteSpace c then trimStart s' else s
  | [] => []
  end.

Definition trimEnd (s : str) : str := reverse (trimStart (reverse s)).

(** [s.trim()] *)
Definition trim (s : str) : str := trimEnd (trimStart s).

(** Truthiness of a string: non-empty. *)
Definition truthy (s : str) : bool :=
  match s with [] => false | _ => true end.

(** The longest prefix whose code units satisfy [p], and the rest. *)
Fixpoint span (p : N -> bool) (s : str) : str * str :=
  match s with
  | c :: s' => if p c then let '(a, r) := span p s' in (c :: a, r) else ([], s)
  | [] => ([], [])
  end.

(** [s] occurs in [t] as a contiguous substring ([t.includes(s)]). *)
Fixpoint includes (t s : str) : bool :=
  bool_decide (s `prefix_of` t)
  || match t with _ :: t' => includes t' s | [] => false end.

End JsString.
Import JsString.

(** ** Host types

    The Web Audio [AudioBuffer], reduced to what the player and the decoder
    observe: rate, channel count and the samples of the first channel. *)

Record AudioBuffer := mkAudioBuffer {
  sampleRate : N;
  numberOfChannels : N;
  channelData : list Q
}.

(** [AudioContext.state] *)
Inductive ContextState := running | suspended | closed.

#[global] Instance ContextState_eq_dec : EqDecision ContextState.
Proof. solve_decision. Defined.

(** [TtsVoice] of [src/types.ts] *)
Inductive TtsVoice := Puck | Charon | Kore | Fenrir | Zephyr.

(** ** Text segmenter: the chunk-splitting effect, lines 65-90 *)

Inductive Status := pending | loading | ready | error.

#[global] Instance Status_eq_dec : EqDecision Status.
Proof. solve_decision. Defined.

Record AudioChunk := mkChunk {
  text : str;
  buffer : option AudioBuffer;
  status : Status
}.

Definition CHUNK_SIZE_LIMIT : nat := 200.

(** The class [[.!?\n]] of the splitting regex. *)
Definition isTerminator (c : N) : bool :=
  ((c =? 46) || (c =? 33) || (c =? 63) || (c =? 10))%N.

(** One attempt of [/[^.!?\n]+[.!?\n]+/] at the head of [s]: the match and
    the text after it. Both classes are greedy and complementary, so the
    attempt succeeds exactly when a non-empty run of non-terminators is
    followed by a non-empty run of terminators. *)
Definition matchAt (s : str) : option (str * str) :=
  let '(body, r) := span (λ c, negb (isTerminator c)) s in
  match body with
  | [] => None
  | _ =>
      let '(terms, r') := span isTerminator r in
      match terms with
      | [] => None
      | _ => Some (body ++ terms, r')
      end
  end.

(** All matches of the global regex, left to right: after a match the scan
    resumes behind it, after a failed attempt one code unit further. *)
Fixpoint matchAll (fuel : nat) (s : str) : list str :=
  match fuel with
  | 0 => []
  | S fuel' =>
      match s with
      | [] => []
      | _ :: s' =>
          match matchAt s with
          | Some (m, r) => m :: matchAll fuel' r
          | None => matchAll fuel' s'
          end
      end
  end.

(** [text.match(regex)]: [null] when nothing matches. *)
Definition regexMatch (t : str) : option (list str) :=
  match matchAll (length t) t with
  | [] => None
  | ms => Some ms
  end.

(** [text.match(regex) || [text]] *)
Definition sentences (t : str) : list str := default [t] (regexMatch t).

Definition newChunk (t : str) : AudioChunk :=
  {| text := trim t; buffer := None; status := pending |}.

(** The [forEach] of lines 75-82, threading [newChunks] and [currentText]. *)
Fixpoint accumulate (ss : list str) (newChunks : list AudioChunk)
    (currentText : str) : list AudioChunk * str :=
  match ss with
  | [] => (newChunks, currentText)
  | s :: ss' =>
      if length (currentText ++ s) <? CHUNK_SIZE_LIMIT
      then accumulate ss' newChunks (currentText ++ s)
      else accumulate ss' (newChunks ++ [newChunk currentText]) s
  end.

(** Lines 69-85: the chunk list built from a text. *)
Definition splitChunks (t : str) : list AudioChunk :=
  let '(newChunks, currentText) := accumulate (sentences t) [] [] in
  if truthy (trim currentText)
  then newChunks ++ [newChunk currentText]
  else newChunks.

Definition chunkTexts (t : str) : list str := map text (splitChunks t).

(** The same loop with the units of every buffer kept apart: [closed] are
    the buffers already pushed, [cur] the units of [currentText]. Used only
    to state which units a chunk was built from. *)
Fixpoint groupUnits (ss : list str) (closed : list (list str))
    (cur : list str) : list (list str) * list str :=
  match ss with
  | [] => (closed, cur)
  | s :: ss' =>
      if length (concat cur ++ s) <? CHUNK_SIZE_LIMIT
      then groupUnits ss' closed (cur ++ [s])
      else groupUnits ss' (closed ++ [cur]) [s]
  end.

(** ** Player state: the component's [useState] and [useRef] cells *)

Inductive PlaybackState := playing | paused | stopped.

#[global] Instance PlaybackState_eq_dec : EqDecision PlaybackState.
Proof. solve_decision. Defined.

(** An [AudioBufferSourceNode] created by [playCurrentChunk], with the
    values its [onended] closure captured from the render that created it. *)
Record SourceNode := mkSource {
  nodeId : nat;
  nodeBuffer : AudioBuffer;
  capturedIdx : nat;
  capturedChunks : list AudioChunk
}.

(** A call of [loadNextBuffer] suspended at one of its two [await]s: the
    request it sent, the [currentChunkIdx] its closure captured, and whether
    it has passed the context test of line 134 and waits for
    [decodeAudioData]. *)
Record PendingLoad := mkLoad {
  targetIdx : nat;
  requestText : str;
  requestVoice : TtsVoice;
  seenIdx : nat;
  decoding : bool
}.

Record Player := mkPlayer {
  chunks : list AudioChunk;
  currentChunkIdx : nat;
  isReadyToPlay : bool;
  playbackState : PlaybackState;
  loadingError : bool;
  voice : TtsVoice;                      (* ttsState.voice *)
  audioContext : option ContextState;    (* audioContextRef.current, its state *)
  sourceRef : option SourceNode;         (* sourceRef.current *)
  started : list SourceNode;             (* nodes started and not yet ended *)
  nextNodeId : nat;
  loads : list PendingLoad;              (* loads awaiting their result *)
  undelivered : list SourceNode          (* nodes taken off the graph whose
                                            ended event is still to come *)
}.

Definition initialPlayer (v : TtsVoice) : Player :=
  {| chunks := []; currentChunkIdx := 0; isReadyToPlay := false;
     playbackState := stopped; loadingError := false; voice := v;
     audioContext := None; sourceRef := None; started := [];
     nextNodeId := 0; loads := []; undelivered := [] |}.

Definition setChunks (f : list AudioChunk → list AudioChunk) (p : Player) :=
  mkPlayer (f (chunks p)) (currentChunkIdx p) (isReadyToPlay p)
    (playbackState p) (loadingError p) (voice p) (audioContext p)
    (sourceRef p) (started p) (nextNodeId p) (loads p) (undelivered p).

Definition setCurrentChunkIdx (f : nat → nat) (p : Player) :=
  mkPlayer (chunks p) (f (currentChunkIdx p)) (isReadyToPlay p)
    (playbackState p) (loadingError p) (voice p) (audioContext p)
    (sourceRef p) (started p) (nextNodeId p) (loads p) (undelivered p).

Definition setIsReadyToPlay (b : bool) (p : Player) :=
  mkPlayer (chunks p) (currentChunkIdx p) b (playbackState p)
    (loadingError p) (voice p) (audioContext p) (sourceRef p) (started p)
    (nextNodeId p) (loads p) (undelivered p).

Definition setPlaybackState (s : PlaybackState) (p : Player) :=
  mkPlayer (chunks p) (currentChunkIdx p) (isReadyToPlay p) s
    (loadingError p) (voice p) (audioContext p) (sourceRef p) (started p)
    (nextNodeId p) (loads p) (undelivered p).

Definition setLoadingError (b : bool) (p : Player) :=
  mkPlayer (chunks p) (currentChunkIdx p) (isReadyToPlay p)
    (playbackState p) b (voice p) (audioContext p) (sourceRef p) (started p)
    (nextNodeId p) (loads p) (undelivered p).

Definition setVoice (v : TtsVoice) (p : Player) :=
  mkPlayer (chunks p) (currentChunkIdx p) (isReadyToPlay p)
    (playbackState p) (loadingError p) v (audioContext p) (sourceRef p)
    (started p) (nextNodeId p) (loads p) (undelivered p).

Definition setAudioContext (c : option ContextState) (p : Player) :=
  mkPlayer (chunks p) (currentChunkIdx p) (isReadyToPlay p)
    (playbackState p) (loadingError p) (voice p) c (sourceRef p) (started p)
    (nextNodeId p) (loads p) (undelivered p).

Definition setSourceRef (s : option SourceNode) (p : Player) :=
  mkPlayer (chunks p) (currentChunkIdx p) (isReadyToPlay p)
    (playbackState p) (loadingError p) (voice p) (audioContext p) s
    (started p) (nextNodeId p) (loads p) (undelivered p).

Definition setStarted (l : list SourceNode) (p : Player) :=
  mkPlayer (chunks p) (currentChunkIdx p) (isReadyToPlay p)
    (playbackState p) (loadingError p) (voice p) (audioContext p)
    (sourceRef p) l (nextNodeId p) (loads p) (undelivered p).

Definition setNextNodeId (n : nat) (p : Player) :=
  mkPlayer (chunks p) (currentChunkIdx p) (isReadyToPlay p)
    (playbackState p) (loadingError p) (voice p) (audioContext p)
    (sourceRef p) (started p) n (loads p) (undelivered p).

Definition setLoads (l : list PendingLoad) (p : Player) :=
  mkPlayer (chunks p) (currentChunkIdx p) (isReadyToPlay p)
    (playbackState p) (loadingError p) (voice p) (audioContext p)
    (sourceRef p) (started p) (nextNodeId p) l (undelivered p).

Definition setUndelivered (l : list SourceNode) (p : Player) :=
  mkPlayer (chunks p) (currentChunkIdx p) (isReadyToPlay p)
    (playbackState p) (loadingError p) (voice p) (audioContext p)
    (sourceRef p) (started p) (nextNodeId p) (loads p) l.

(** [{ ...c, status: s }] and [{ ...c, buffer, status: 'ready' }] *)
Definition withStatus (s : Status) (c : AudioChunk) : AudioChunk :=
  {| text := text c; buffer := buffer c; status := s |}.

Definition withBuffer (b : AudioBuffer) (c : AudioChunk) : AudioChunk :=
  {| text := text c; buffer := Some b; status := ready |}.

(** [prev.map((c, i) => i === k ? f(c) : c)]: out of range it changes
    nothing, as [alter] on lists. *)
Definition mapAt (f : AudioChunk → AudioChunk) (k : nat)
    (prev : list AudioChunk) : list AudioChunk := alter f k prev.

(** [Array.prototype.findIndex], [None] for [-1]; [i] is the index of the
    head of [l]. *)
Fixpoint findIndex {A} (f : A → nat → bool) (l : list A) (i : nat)
    : option nat :=
  match l with
  | [] => None
  | x :: l' => if f x i then Some i else findIndex f l' (S i)
  end.

(** ** Effects and handlers *)

(** [cleanupAudio], lines 39-62. [stop()] takes the node off the graph; a
    context that is closed renders nothing, so no node stays started. The
    node keeps its [onended] handler: its [ended] event, raised by [stop()]
    or queued just before because its audio had ended, is still to be
    delivered. *)
Definition cleanupAudio (p : Player) : Player :=
  let p1 :=
    match sourceRef p with
    | Some n =>
        setSourceRef None
          (setUndelivered (undelivered p ++ [n])
            (setStarted (filter (λ m, nodeId m ≠ nodeId n) (started p)) p))
    | None => p
    end in
  match audioContext p1 with
  | Some running | Some suspended =>
      setStarted [] (setAudioContext (Some closed) p1)
  | _ => p1
  end.

(** The chunk-splitting effect, lines 65-108, run for a new [text] prop; the
    cleanup returned by its previous run comes first. The new context starts
    in state [running]. *)
Definition splitEffect (t : str) (p : Player) : Player :=
  let p0 := cleanupAudio p in
  if negb (truthy t) then p0
  else
    setAudioContext (Some running)
      (setLoadingError false
        (setPlaybackState playing
          (setCurrentChunkIdx (λ _, 0)
            (setChunks (λ _, splitChunks t) p0)))).

(** The buffer-loader effect, lines 120-152, up to its first [await]. *)
Definition loaderTarget (p : Player) : option nat :=
  findIndex
    (λ c i, bool_decide (currentChunkIdx p ≤ i) && bool_decide (status c = pending))
    (chunks p) 0.

Definition loaderEffect (p : Player) : Player :=
  match loaderTarget p with
  | Some t =>
      match chunks p !! t with
      | Some chunk =>
          setLoads
            (loads p
             ++ [mkLoad t (text chunk) (voice p) (currentChunkIdx p) false])
            (setChunks (mapAt (withStatus loading) t) p)
      | None => p
      end
  | None => p
  end.

(** How a suspended load goes on. Awaiting [generateSpeech]: it threw (or
    [decodeBase64] threw on its result), or the bytes arrived. Awaiting
    [decodeAudioData]: it threw, or returned a buffer. *)
Inductive LoadOutcome :=
| FetchThrew
| Fetched
| DecodeThrew
| Decoded (b : AudioBuffer).

(** The [catch] block, lines 143-147. *)
Definition loadFailed (l : PendingLoad) (p : Player) : Player :=
  let p1 := setChunks (mapAt (withStatus error) (targetIdx l)) p in
  if bool_decide (targetIdx l = seenIdx l) then setLoadingError true p1 else p1.

(** [audioContextRef.current && audioContextRef.current.state !== 'closed'] *)
Definition contextOpen (p : Player) : bool :=
  match audioContext p with
  | Some running | Some suspended => true
  | _ => false
  end.

Definition startDecoding (l : PendingLoad) : PendingLoad :=
  mkLoad (targetIdx l) (requestText l) (requestVoice l) (seenIdx l) true.

(** Lines 131-147 for the [k]-th suspended load; an outcome that does not
    belong to the [await] the load is suspended at changes nothing. *)
Definition loadSettled (k : nat) (o : LoadOutcome) (p : Player) : Player :=
  match loads p !! k with
  | None => p
  | Some l =>
      let p0 := setLoads (delete k (loads p)) p in
      match decoding l, o with
      | false, FetchThrew => loadFailed l p0
      | false, Fetched =>
          if contextOpen p
          then setLoads (<[k := startDecoding l]> (loads p)) p
          else p0
      | true, DecodeThrew => loadFailed l p0
      | true, Decoded b =>
          let p1 := setChunks (mapAt (withBuffer b) (targetIdx l)) p0 in
          if bool_decide (targetIdx l = seenIdx l)
          then setIsReadyToPlay true p1 else p1
      | _, _ => p
      end
  end.

(** [playCurrentChunk], lines 169-208; [resumeOk] tells whether
    [ctx.resume()] is fulfilled. [gainNodeRef] is set together with the
    context. Only the state [suspended] is tested, so a closed context goes
    on like a running one. The node's [onended] closure keeps the [chunks]
    and [currentChunkIdx] of this call. *)
Definition playCurrentChunk (resumeOk : bool) (p : Player) : Player :=
  match audioContext p with
  | None => p
  | Some suspended =>
      if resumeOk then setAudioContext (Some running) p else p
  | Some _ =>
      match chunks p !! currentChunkIdx p with
      | None => p
      | Some chunk =>
          match buffer chunk with
          | None => p
          | Some b =>
              match sourceRef p with
              | Some _ => p
              | None =>
                  let source :=
                    mkSource (nextNodeId p) b (currentChunkIdx p) (chunks p) in
                  setSourceRef (Some source)
                    (setStarted (started p ++ [source])
                      (setNextNodeId (S (nextNodeId p)) p))
              end
          end
      end
  end.

(** The playback effect, lines 155-160. *)
Definition playbackEffect (resumeOk : bool) (p : Player) : Player :=
  if bool_decide (playbackState p = playing) && isReadyToPlay p
  then playCurrentChunk resumeOk p else p.

(** [!!chunks[i]?.buffer] *)
Definition hasBuffer (cs : list AudioChunk) (i : nat) : bool :=
  match cs !! i with
  | Some c => bool_decide (is_Some (buffer c))
  | None => false
  end.

(** [source.onended], lines 193-204, for the node [n]: the test and the
    buffer lookup read the captured values, the increment reads the state. *)
Definition onended (n : SourceNode) (p : Player) : Player :=
  let p0 := setSourceRef None p in
  if (Z.of_nat (capturedIdx n) <? Z.of_nat (length (capturedChunks n)) - 1)%Z
  then
    setIsReadyToPlay (hasBuffer (capturedChunks n) (capturedIdx n + 1))
      (setCurrentChunkIdx (λ prev, prev + 1) p0)
  else setCurrentChunkIdx (λ _, 0) (setPlaybackState stopped p0).

(** The audio of the [k]-th started node ends and its [ended] event is
    delivered before anything else happens; only a running context renders
    audio. *)
Definition sourceEnded (k : nat) (p : Player) : Player :=
  match audioContext p, started p !! k with
  | Some running, Some n => onended n (setStarted (delete k (started p)) p)
  | _, _ => p
  end.

(** The [ended] event of the [k]-th node that [cleanupAudio] took off the
    graph is delivered: the handler of lines 193-204 has no guard and was
    never cleared, so it runs on whatever the state is by then. *)
Definition lateEnded (k : nat) (p : Player) : Player :=
  match undelivered p !! k with
  | Some n => onended n (setUndelivered (delete k (undelivered p)) p)
  | None => p
  end.

(** [handlePause], lines 210-219; [ok] tells whether [suspend()] is
    fulfilled. A rejected [suspend()] leaves the context as it was. *)
Definition handlePause (ok : bool) (p : Player) : Player :=
  match audioContext p with
  | Some running =>
      if ok then setPlaybackState paused (setAudioContext (Some suspended) p)
      else p
  | _ => p
  end.

(** [handleResume], lines 221-232. *)
Definition handleResume (ok : bool) (p : Player) : Player :=
  match audioContext p with
  | Some suspended =>
      if ok then setPlaybackState playing (setAudioContext (Some running) p)
      else p
  | _ => setPlaybackState playing p
  end.

(** The Retry button's handler, line 290. *)
Definition handleRetry (p : Player) : Player := setPlaybackState playing p.

(** What the user and the host can do. The Retry button is rendered when
    [loadingError] holds, the play/pause button otherwise, disabled while
    there are no chunks (lines 289-305). *)
Inductive Event :=
| TextChanged (t : str)
| VoiceChanged (v : TtsVoice)
| LoaderEffect
| LoadSettled (k : nat) (o : LoadOutcome)
| PlaybackEffect (resumeOk : bool)
| SourceEnded (k : nat)
| ClickPlayPause (ok : bool)
| ClickRetry
| ClickClose.

(** React runs an effect after a render that changed one of its
    dependencies; here an effect may run in any state, which covers those
    runs. *)
Definition step (p : Player) (e : Event) : Player :=
  match e with
  | TextChanged t => splitEffect t p
  | VoiceChanged v => setVoice v p
  | LoaderEffect => loaderEffect p
  | LoadSettled k o => loadSettled k o p
  | PlaybackEffect resumeOk => playbackEffect resumeOk p
  | SourceEnded k => sourceEnded k p
  | ClickPlayPause ok =>
      if loadingError p then p
      else if bool_decide (chunks p = []) then p
      else if bool_decide (playbackState p = playing)
           then handlePause ok p else handleResume ok p
  | ClickRetry => if loadingError p then handleRetry p else p
  | ClickClose => cleanupAudio p
  end.

Definition run (es : list Event) (p : Player) : Player := foldl step p es.

(** The states reached when every [ended] event is delivered in order,
    before a text change or a close takes its node off the graph. *)
Definition reachable (p : Player) : Prop :=
  ∃ v es, p = run es (initialPlayer v).

(** The host delivers [ended] by a queued task, so the event of a node may
    also arrive after [cleanupAudio] has run for it. *)
Inductive HostEvent :=
| InOrder (e : Event)
| LateEnded (k : nat).

Definition hostStep (p : Player) (h : HostEvent) : Player :=
  match h with
  | InOrder e => step p e
  | LateEnded k => lateEnded k p
  end.

Definition hostRun (hs : list HostEvent) (p : Player) : Player :=
  foldl hostStep p hs.

Definition hostReachable (p : Player) : Prop :=
  ∃ v hs, p = hostRun hs (initialPlayer v).

Definition countLoading (cs : list AudioChunk) : nat :=
  length (filter (λ c, status c = loading) cs).

(** ** Audio decoder *)

Module Decoder.

Inductive AudioError := FetchError | DecodeError | AudioSystemError.

Definition SYNTHESIS_SAMPLE_RATE : N := 24000.

(** Two bytes, low byte first, as a signed 16-bit integer. *)
Definition int16le (lo hi : byte) : Z :=
  let u := (Z.of_N (Byte.to_N lo) + 256 * Z.of_N (Byte.to_N hi))%Z in
  if (u <? 32768)%Z then u else (u - 65536)%Z.

(** A PCM sample divided by 32768; exact in binary floating point, so a
    rational stands for the float. *)
Definition normalize (v : Z) : Q := Qmake v 32768.

(** The samples of a payload; [None] when a byte is left over. *)
Fixpoint pcmSamples (bytes : list byte) : option (list Q) :=
  match bytes with
  | [] => Some []
  | [_] => None
  | lo :: hi :: rest =>
      match pcmSamples rest with
      | Some l => Some (normalize (int16le lo hi) :: l)
      | None => None
      end
  end.

(** Modelled from the spec: [decodeAudioData] of [services/audioUtils],
    which [TtsPlayer.tsx] imports and the sources do not contain. It fails
    with [DecodeError] when the audio context is unavailable or the byte
    length is not a whole number of 16-bit samples, and otherwise packs
    the normalized little-endian samples into one channel at 24000 Hz. *)
Definition decodeAudioData (bytes : list byte) (ctx : option ContextState)
    : AudioError + AudioBuffer :=
  match ctx with
  | Some running | Some suspended =>
      match pcmSamples bytes with
      | Some l => inr (mkAudioBuffer SYNTHESIS_SAMPLE_RATE 1 l)
      | None => inl DecodeError
      end
  | _ => inl DecodeError
  end.

(** The [i]-th 16-bit sample of a payload, normalized. *)
Definition sampleAt (bytes : list byte) (i : nat) : option Q :=
  match bytes !! (2 * i), bytes !! (2 * i + 1) with
  | Some lo, Some hi => Some (normalize (int16le lo hi))
  | _, _ => None
  end.

Definition contextAvailable (ctx : option ContextState) : bool :=
  match ctx with
  | Some running | Some suspended => true
  | _ => false
  end.

End Decoder.

(** ** The speech request of [generateSpeech], [src/services/gemini.ts] *)

Module Gemini.

(** [TTS_PREAMBLE] and [GEMINI_TTS_MODEL] of [src/constants.ts] *)
Definition TTS_PREAMBLE : str :=
  js "Read the following text naturally and fluently. Maintain smooth flow between English and Bangla. No robotic pauses.".

Definition GEMINI_TTS_MODEL : str := js "gemini-2.5-flash-preview-tts".

(** The class [[#*`_~]] *)
Definition isMarkdownChar (c : N) : bool :=
  ((c =? 35) || (c =? 42) || (c =? 96) || (c =? 95) || (c =? 126))%N.

(** [.replace(/[#*`_~]/g, '')] *)
Definition removeMarkdown (s : str) : str :=
  filter (λ c, isMarkdownChar c = false) s.

(** [.replace(/\s+/g, ' ')]; [inRun] holds inside a run of whitespace whose
    space has been written. *)
Fixpoint collapseFrom (inRun : bool) (s : str) : str :=
  match s with
  | [] => []
  | c :: s' =>
      if isWhiteSpace c
      then if inRun then collapseFrom true s' else 32%N :: collapseFrom true s'
      else c :: collapseFrom false s'
  end.

Definition normalizeWhitespace (s : str) : str := collapseFrom false s.

(** Lines 61-64 *)
Definition cleanText (t : str) : str :=
  trim (normalizeWhitespace (removeMarkdown t)).

(** Line 66: the template [`${TTS_PREAMBLE}\n\nText: ${cleanText}`] *)
Definition fullPrompt (t : str) : str :=
  TTS_PREAMBLE ++ [10%N; 10%N] ++ js "Text: " ++ cleanText t.

(** The argument of [ai.models.generateContent], lines 69-82. *)
Record SpeechRequest := mkRequest {
  model : str;
  promptText : str;
  voiceName : TtsVoice
}.

(** Lines 56-82: [None] when [getClient] throws for a missing API key,
    before anything is sent. *)
Definition generateSpeechRequest (apiKey : option str) (t : str)
    (v : TtsVoice) : option SpeechRequest :=
  match apiKey with
  | Some k =>
      if truthy k then Some (mkRequest GEMINI_TTS_MODEL (fullPrompt t) v)
      else None
  | None => None
  end.

End Gemini.

(** ** Invariants and scenarios *)

(** A buffer of several units is under the limit. *)
Definition underLimit (g : list str) : Prop :=
  1 < length g → length (concat g) < CHUNK_SIZE_LIMIT.

(** [s] ends in a sentence terminator. *)
Definition endsInTerminator (s : str) : Prop :=
  ∃ t, last s = Some t ∧ isTerminator t = true.

(** No two neighbours are both whitespace. *)
Definition singleSpaced (s : str) : Prop :=
  ∀ i x y, s !! i = Some x → s !! S i = Some y →
           isWhiteSpace x = true → isWhiteSpace y = false.

(** The session invariant of the specification. *)
Definition sessionInvariant (p : Player) : Prop :=
  (chunks p ≠ [] → currentChunkIdx p < length (chunks p))
  ∧ (playbackState p = playing → length (started p) ≤ 1).

(** What holds of every reachable state besides: the only started node is
    the one [sourceRef] holds, and it was created at the current index from
    a chunk list as long as the current one. *)
Definition sourceInvariant (p : Player) : Prop :=
  started p = from_option (λ n, [n]) [] (sourceRef p)
  ∧ ∀ n, sourceRef p = Some n →
         capturedIdx n = currentChunkIdx p
         ∧ length (capturedChunks n) = length (chunks p).

Definition playerInvariant (p : Player) : Prop :=
  (chunks p ≠ [] → currentChunkIdx p < length (chunks p))
  ∧ sourceInvariant p.

(** The 450-character text of the scenario: 180 letters, a full stop, 179
    letters, a full stop (at positions 180 and 360), and 89 letters. *)
Definition scenarioText : str :=
  repeat 97%N 180 ++ [46%N] ++ repeat 98%N 179 ++ [46%N] ++ repeat 99%N 89.

(** Two sentences of 150 characters: two chunks. *)
Definition twoSentences : str :=
  repeat 97%N 149 ++ [46%N] ++ repeat 98%N 149 ++ [46%N].

Definition silence : AudioBuffer := mkAudioBuffer 24000 1 [].

(** Mount with [twoSentences]. The loader effect runs after the first
    render and marks chunk 0; [chunks] has changed, so it runs again after
    the next render and marks chunk 1 while the first fetch is pending. *)
Definition twoLoadsTrace : list Event :=
  [TextChanged twoSentences; LoaderEffect; LoaderEffect].

(** Both loads of [twoLoadsTrace] succeed (bytes arrive, then the decoded
    buffer), the first while nothing plays and the second while chunk 0
    plays. The playback effect runs because
    [isReadyToPlay] changed. *)
Definition chunkZeroPlaying : list Event :=
  twoLoadsTrace
  ++ [LoadSettled 0 Fetched; LoadSettled 0 (Decoded silence);
      PlaybackEffect true;
      LoadSettled 0 Fetched; LoadSettled 0 (Decoded silence)].

(** Then chunk 0 ends; [currentChunkIdx] changes, so the playback effect
    and the loader effect run. *)
Definition afterChunkZero : list Event :=
  [SourceEnded 0; PlaybackEffect true; LoaderEffect].

(** Mount with one sentence; its only load fails. *)
Definition failedLoadTrace : list Event :=
  [TextChanged (js "Hi."); LoaderEffect; LoadSettled 0 FetchThrew].

Definition isTextChanged (e : Event) : bool :=
  match e with TextChanged _ => true | _ => false end.

(** Chunk 1 is current and decoded, nothing plays, nothing is pending and
    [isReadyToPlay] is down. *)
Definition stalled (p : Player) : Prop :=
  map status (chunks p) = [ready; ready]
  ∧ currentChunkIdx p = 1
  ∧ isReadyToPlay p = false
  ∧ sourceRef p = None
  ∧ started p = []
  ∧ loads p = [].

(** ** Further invariants of the player *)



(** Neither end of the string is whitespace. *)
Definition trimmed (s : str) : Prop :=
  (∀ c, head s = Some c → isWhiteSpace c = false)
  ∧ (∀ c, last s = Some c → isWhiteSpace c = false).

(** What every operation other than a new text does to the chunks: each
    chunk keeps its text, and a chunk that is [pending] afterwards was the
    same chunk before. *)
Definition chunksKept (p q : Player) : Prop :=
  map text (chunks q) = map text (chunks p)
  ∧ ∀ i c, chunks q !! i = Some c → status c = pending →
           chunks p !! i = Some c.

(** ** The application shell, [src/App.tsx]: notes, dictation, speak,
    export and chat *)

Module App.

Record Note := mkNote {
  id : str;
  title : str;
  content : str;
  updatedAt : N
}.

(** The [notes] and [currentNoteId] cells. *)
Record NoteState := mkNoteState {
  notes : list Note;
  currentNoteId : option str
}.

(** [notes.find(n => n.id === i)] *)
Fixpoint findNote (i : str) (l : list Note) : option Note :=
  match l with
  | [] => None
  | n :: l' => if bool_decide (id n = i) then Some n else findNote i l'
  end.

(** [getCurrentNote], line 56; no note has the id [null]. *)
Definition getCurrentNote (s : NoteState) : option Note :=
  match currentNoteId s with
  | Some i => findNote i (notes s)
  | None => None
  end.

(** [content.split('\n')[0]] *)
Fixpoint firstLine (s : str) : str :=
  match s with
  | [] => []
  | c :: s' => if (c =? 10)%N then [] else c :: firstLine s'
  end.

(** [content.split('\n')[0].substring(0, 30) || 'Untitled'], line 61 *)
Definition deriveTitle (content : str) : str :=
  let t := take 30 (firstLine content) in
  if truthy t then t else js "Untitled".

(** The function [handleUpdateNote] passes to [setNotes], for the current
    id [cur] of the render the handler belongs to. *)
Definition updateNotes (cur content : str) (now : N) (prev : list Note)
    : list Note :=
  map (λ n, if bool_decide (id n = cur)
            then mkNote (id n) (deriveTitle content) content now
            else n)
      prev.

(** [handleUpdateNote], lines 58-63; [now] is [Date.now()]. *)
Definition handleUpdateNote (content : str) (now : N) (s : NoteState)
    : NoteState :=
  match currentNoteId s with
  | Some cur =>
      if truthy cur
      then mkNoteState (updateNotes cur content now (notes s)) (Some cur)
      else s
  | None => s
  end.

(** [handleNewNote], lines 65-75; [uuid] is [uuidv4()]. *)
Definition handleNewNote (uuid : str) (now : N) (s : NoteState) : NoteState :=
  mkNoteState (mkNote uuid (js "Untitled Note") [] now :: notes s) (Some uuid).

(** [handleDeleteNote], lines 77-81 *)
Definition handleDeleteNote (i : str) (s : NoteState) : NoteState :=
  mkNoteState (filter (λ n, id n ≠ i) (notes s))
    (if bool_decide (currentNoteId s = Some i) then None else currentNoteId s).

(** [onSelectNote], lines 214-217 *)
Definition selectNote (i : str) (s : NoteState) : NoteState :=
  mkNoteState (notes s) (Some i).

(** *** Dictation, lines 84-119 *)

(** One entry of [event.results]: [isFinal] and [[0].transcript]. *)
Record SpeechResult := mkResult {
  isFinal : bool;
  transcript : str
}.

(** The loop of lines 100-105. *)
Definition finalTranscript (resultIndex : nat) (results : list SpeechResult)
    : str :=
  concat (map (λ r, if isFinal r then transcript r ++ [32%N] else [])
              (drop resultIndex results)).

(** [recognition.onresult], lines 99-112. The handler belongs to the render
    in which recording was started: [captured] is the note state of that
    render, read by [currentNoteId], [getCurrentNote] and the id test of
    [handleUpdateNote]; [setNotes] maps over the state [s] of now. *)
Definition onresult (captured : NoteState) (resultIndex : nat)
    (results : list SpeechResult) (now : N) (s : NoteState) : NoteState :=
  let ft := finalTranscript resultIndex results in
  match currentNoteId captured with
  | Some cur =>
      if truthy ft && truthy cur then
        match getCurrentNote captured with
        | Some note =>
            mkNoteState (updateNotes cur (content note ++ ft) now (notes s))
              (currentNoteId s)
        | None => s
        end
      else s
  | None => s
  end.

(** What changes the notes: the sidebar shows one row per note, whose
    click selects that note and whose bin deletes it ([Sidebar.tsx], lines
    56-73); the editor edits the current note; a dictation result arrives
    with the note state its handler captured, whichever that was. *)
Inductive NoteEvent :=
| NewNote (uuid : str) (now : N)
| SelectRow (k : nat)
| DeleteRow (k : nat)
| UpdateNote (content : str) (now : N)
| Dictated (captured : NoteState) (resultIndex : nat)
    (results : list SpeechResult) (now : N).

Definition noteStep (s : NoteState) (e : NoteEvent) : NoteState :=
  match e with
  | NewNote uuid now => handleNewNote uuid now s
  | SelectRow k =>
      match notes s !! k with
      | Some n => selectNote (id n) s
      | None => s
      end
  | DeleteRow k =>
      match notes s !! k with
      | Some n => handleDeleteNote (id n) s
      | None => s
      end
  | UpdateNote content now => handleUpdateNote content now s
  | Dictated captured resultIndex results now =>
      onresult captured resultIndex results now s
  end.

(** The notes come from local storage, none is selected (lines 13-17). *)
Definition noteReachable (s : NoteState) : Prop :=
  ∃ saved es, s = foldl noteStep (mkNoteState saved None) es.

(** *** Speak, lines 166-178 *)

Record TtsState := mkTtsState {
  isPlaying : bool;
  isLoading : bool;
  speed : Q;
  voice : TtsVoice;
  textToRead : str
}.

Definition SPEAK_FALLBACK : str :=
  js "Please select a note or type something to read.".

(** [note?.content || "Please select ..."] *)
Definition speakText (s : NoteState) : str :=
  match getCurrentNote s with
  | Some n => if truthy (content n) then content n else SPEAK_FALLBACK
  | None => SPEAK_FALLBACK
  end.

Definition handleSpeak (s : NoteState) (t : TtsState) : TtsState :=
  let text := speakText s in
  if truthy (trim text)
  then mkTtsState true (isLoading t) (speed t) (voice t) text
  else t.

(** *** Export, lines 181-205 *)

(** [.replace(/\s+/g, r)] for a one-character [r]; [inRun] holds inside a
    run of whitespace whose replacement has been written. *)
Fixpoint replaceRuns (r : N) (inRun : bool) (s : str) : str :=
  match s with
  | [] => []
  | c :: s' =>
      if isWhiteSpace c
      then if inRun then replaceRuns r true s' else r :: replaceRuns r true s'
      else c :: replaceRuns r false s'
  end.

(** [`${note.title.replace(/\s+/g, '_')}.doc`], line 201; nothing is
    exported without a current note. *)
Definition exportFileName (s : NoteState) : option str :=
  match getCurrentNote s with
  | Some note => Some (replaceRuns 95%N false (title note) ++ js ".doc")
  | None => None
  end.

(** *** Chat, lines 122-163, with [sendMessageToGemini] of
    [src/services/gemini.ts], lines 13-53 *)

Inductive Role := user | model.

#[global] Instance Role_eq_dec : EqDecision Role.
Proof. solve_decision. Defined.

Record ChatMessage := mkMessage {
  msgId : str;
  role : Role;
  text : str;
  image : option str;
  timestamp : N
}.

Inductive Part :=
| TextPart (t : str)
| InlineData (mimeType data : str).

(** The arguments [sendMessageToGemini] gives to [ai.chats.create] and
    [chat.sendMessage]. *)
Record ChatRequest := mkChatRequest {
  history : list (Role * str);
  message : list Part
}.

(** Line 136 *)
Definition contextPrompt (s : NoteState) (t : str) : str :=
  match getCurrentNote s with
  | Some note =>
      [10%N; 10%N] ++ js "Context from current note:" ++ [10%N]
      ++ content note ++ [10%N; 10%N] ++ js "User Question: " ++ t
  | None => t
  end.

Definition truthyOpt (o : option str) : bool :=
  match o with Some s => truthy s | None => false end.

(** Lines 138-143 of [App.tsx] and 27-46 of [gemini.ts] *)
Definition chatRequest (s : NoteState) (chatMessages : list ChatMessage)
    (t : str) (img : option str) : ChatRequest :=
  mkChatRequest
    (map (λ m, (role m, text m)) chatMessages)
    (TextPart (contextPrompt s t)
     :: match img with
        | Some d => if truthy d then [InlineData (js "image/jpeg") d] else []
        | None => []
        end).

Record ChatState := mkChatState {
  chatMessages : list ChatMessage;
  isChatLoading : bool;
  inFlight : list ChatRequest        (* calls awaiting their reply *)
}.

Definition CHAT_ERROR_TEXT : str :=
  js "Sorry, I encountered an error. Please check your API key and connection.".

(** [handleSendMessage] up to its [await], lines 122-143. *)
Definition sendMessage (uuid : str) (now : N) (t : str) (img : option str)
    (s : NoteState) (c : ChatState) : ChatState :=
  mkChatState
    (chatMessages c ++ [mkMessage uuid user t img now])
    true
    (inFlight c ++ [chatRequest s (chatMessages c) t img]).

(** Lines 143-162 for the [k]-th call in flight: [reply] is the text the
    service returned, [None] when the call threw. *)
Definition replyArrived (k : nat) (reply : option str) (uuid : str) (now : N)
    (c : ChatState) : ChatState :=
  match inFlight c !! k with
  | None => c
  | Some _ =>
      mkChatState
        (chatMessages c
         ++ [mkMessage uuid model (default CHAT_ERROR_TEXT reply) None now])
        false
        (delete k (inFlight c))
  end.

Inductive ChatEvent :=
| Send (uuid : str) (now : N) (t : str) (img : option str) (s : NoteState)
| Reply (k : nat) (reply : option str) (uuid : str) (now : N).

Definition chatStep (c : ChatState) (e : ChatEvent) : ChatState :=
  match e with
  | Send uuid now t img s => sendMessage uuid now t img s c
  | Reply k reply uuid now => replyArrived k reply uuid now c
  end.

Definition chatReachable (c : ChatState) : Prop :=
  ∃ es, c = foldl chatStep (mkChatState [] false []) es.

Definition countRole (r : Role) (l : list ChatMessage) : nat :=
  length (filter (λ m, role m = r) l).

End App.

(** ** Invariants of the application shell *)

(** The note the current id names exists. *)
Definition currentExists (s : App.NoteState) : Prop :=
  ∀ i, App.currentNoteId s = Some i → is_Some (App.getCurrentNote s).

(** Every message of the model answers one of the user's; the calls in
    flight are the user's messages not yet answered. *)
Definition chatBalanced (c : App.ChatState) : Prop :=
  App.countRole App.user (App.chatMessages c)
  = App.countRole App.model (App.chatMessages c) + length (App.inFlight c).

(** ** Words

    The reading of "every run of whitespace becomes one separator" that
    the cleaning and the export name are measured against. *)

(** The words of a string: its maximal runs of code units that are not
    whitespace, in order ([s.split(/\s+/).filter(Boolean)]). *)
Fixpoint words (s : str) : list str :=
  match s with
  | [] => []
  | c :: s' =>
      if isWhiteSpace c then words s'
      else
        match s' with
        | [] => [[c]]
        | d :: _ =>
            if isWhiteSpace d then [c] :: words s'
            else
              match words s' with
              | w :: ws => (c :: w) :: ws
              | [] => [[c]]
              end
        end
  end.

(** [ws.join(sep)] for a one-character separator. *)
Fixpoint joinWith (sep : N) (ws : list str) : str :=
  match ws with
  | [] => []
  | w :: ws' =>
      match ws' with
      | [] => w
      | _ :: _ => w ++ sep :: joinWith sep ws'
      end
  end.

(** The string begins with whitespace. *)
Definition startsWithSpace (s : str) : bool :=
  match s with
  | c :: _ => isWhiteSpace c
  | [] => false
  end.

(** The string has a word and whitespace after its last word. *)
Definition endsWithSpace (s : str) : bool :=
  match words s, last s with
  | _ :: _, Some c => isWhiteSpace c
  | _, _ => false
  end.

(** Chunk 0 of two plays; a new text arrives before the [ended] event of
    its node is delivered, and the event is delivered afterwards. *)
Definition lateEndedTrace : list HostEvent :=
  map InOrder chunkZeroPlaying
  ++ [InOrder (TextChanged (js "New text.")); LateEnded 0].

(** * Properties *)

(** ** Strings *)

Section StringFacts.

Lemma trimStart_length (s : str) : length (trimStart s) ≤ length s.
Proof.
  induction s as [|c s IH]; simpl; [lia|].
  destruct (isWhiteSpace c); simpl; lia.
Qed.

Lemma trim_length (s : str) : length (trim s) ≤ length s.
Proof.
  unfold trim, trimEnd. rewrite length_reverse.
  etransitivity; [apply trimStart_length|].
  rewrite length_reverse. apply trimStart_length.
Qed.

Lemma length_repeat_N (c : N) (n : nat) : length (repeat c n) = n.
Proof. induction n; simpl; congruence. Qed.

End StringFacts.

(** ** The splitting regex *)

Section Span.

Variable p : N → bool.

Lemma span_app (s : str) : s = (span p s).1 ++ (span p s).2.
Proof.
  induction s as [|c s IH]; simpl; [done|].
  destruct (p c); [|done]. destruct (span p s) as [a r]. simpl in *.
  now f_equal.
Qed.

Lemma span_run (s : str) : Forall (λ c, p c = true) (span p s).1.
Proof.
  induction s as [|c s IH]; simpl; [constructor|].
  destruct (p c) eqn:E; [|constructor].
  destruct (span p s) as [a r]. simpl in *. now constructor.
Qed.

Lemma span_rest (s : str) (c : N) :
  head (span p s).2 = Some c → p c = false.
Proof.
  induction s as [|x s IH]; simpl; [done|].
  destruct (p x) eqn:E.
  - destruct (span p s) as [a r]. exact IH.
  - simpl. congruence.
Qed.

(** A split into a run satisfying [p] and a rest that does not go on with
    [p] is the one [span] finds. *)
Lemma span_unique (a r : str) :
  Forall (λ c, p c = true) a →
  (∀ c, head r = Some c → p c = false) →
  span p (a ++ r) = (a, r).
Proof.
  intros Ha Hr. induction Ha as [|c a Hc Ha IH]; simpl.
  - destruct r as [|c r]; [done|]. simpl. now rewrite (Hr c eq_refl).
  - now rewrite Hc, IH.
Qed.

End Span.

Section MatchAt.

Lemma matchAt_split (body terms r : str) :
  body ≠ [] → Forall (λ c, negb (isTerminator c) = true) body →
  terms ≠ [] → Forall (λ c, isTerminator c = true) terms →
  (∀ c, head r = Some c → isTerminator c = false) →
  matchAt (body ++ terms ++ r) = Some (body ++ terms, r).
Proof.
  intros Hb Hbody Ht Hterms Hr. unfold matchAt.
  rewrite span_unique; [|done|].
  - destruct body; [done|]. rewrite span_unique; [|done..].
    now destruct terms.
  - intros c Hc. destruct Hterms as [|t terms Hx _]; [done|].
    injection Hc as <-. now rewrite Hx.
Qed.

Lemma matchAt_Some (s m r : str) :
  matchAt s = Some (m, r) →
  ∃ body terms,
    m = body ++ terms ∧ s = body ++ terms ++ r
    ∧ body ≠ [] ∧ Forall (λ c, negb (isTerminator c) = true) body
    ∧ terms ≠ [] ∧ Forall (λ c, isTerminator c = true) terms
    ∧ ∀ c, head r = Some c → isTerminator c = false.
Proof.
  unfold matchAt. intros H.
  pose proof (span_app (λ c, negb (isTerminator c)) s) as E1.
  pose proof (span_run (λ c, negb (isTerminator c)) s) as R1.
  destruct (span (λ c, negb (isTerminator c)) s) as [body r1].
  simpl in E1, R1.
  pose proof (span_app isTerminator r1) as E2.
  pose proof (span_run isTerminator r1) as R2.
  pose proof (span_rest isTerminator r1) as T2.
  destruct (span isTerminator r1) as [terms r2]. simpl in E2, R2, T2.
  destruct body as [|b body]; [done|]. destruct terms as [|t terms]; [done|].
  injection H as <- <-. exists (b :: body), (t :: terms).
  repeat split; try done. now rewrite <- E2.
Qed.

(** In a text that ends in a terminator an attempt fails only at a
    terminator. *)
Lemma matchAt_None (s : str) :
  endsInTerminator s → matchAt s = None →
  ∃ c s', s = c :: s' ∧ isTerminator c = true.
Proof.
  intros (t & Hlast & Ht) H. unfold matchAt in H.
  pose proof (span_app (λ c, negb (isTerminator c)) s) as E1.
  pose proof (span_run (λ c, negb (isTerminator c)) s) as R1.
  pose proof (span_rest (λ c, negb (isTerminator c)) s) as T1.
  destruct (span (λ c, negb (isTerminator c)) s) as [body r1].
  simpl in E1, R1, T1.
  destruct body as [|b body].
  - simpl in E1. subst r1. destruct s as [|c s']; [done|].
    exists c, s'. split; [done|]. specialize (T1 c eq_refl).
    now destruct (isTerminator c).
  - exfalso.
    pose proof (span_app isTerminator r1) as E2.
    pose proof (span_rest isTerminator r1) as T2.
    destruct (span isTerminator r1) as [terms r2]. simpl in E2, T2.
    destruct terms; [|done]. simpl in E2. subst r2.
    destruct r1 as [|c r1].
    + rewrite app_nil_r in E1. subst s.
      apply last_Some_elem_of in Hlast.
      rewrite Forall_forall in R1. apply R1 in Hlast. now rewrite Ht in Hlast.
    + specialize (T1 c eq_refl). specialize (T2 c eq_refl).
      rewrite T2 in T1. done.
Qed.

End MatchAt.

Section Tail.

(** A [tail] without terminator behind a text that ends in one. *)
Variable tail : str.
Hypothesis tail_plain : Forall (λ c, isTerminator c = false) tail.

Lemma matchAt_plain (s : str) :
  Forall (λ c, isTerminator c = false) s → matchAt s = None.
Proof.
  intros Hs. destruct (matchAt s) as [[m r]|] eqn:E; [|done].
  apply matchAt_Some in E as (body & terms & _ & -> & _ & _ & Ht & Hterms & _).
  destruct Hterms as [|t terms Hx _]; [done|].
  apply Forall_app in Hs as [_ Hs]. apply Forall_app in Hs as [Hs _].
  apply Forall_cons in Hs as [Hs _]. congruence.
Qed.

Lemma matchAll_plain (fuel : nat) :
  ∀ s, Forall (λ c, isTerminator c = false) s → matchAll fuel s = [].
Proof.
  induction fuel as [|fuel IH]; intros s Hs; [done|].
  destruct s as [|c s]; [done|]. simpl matchAll.
  rewrite matchAt_plain by done. apply IH.
  now apply Forall_cons in Hs as [_ Hs].
Qed.

Lemma matchAt_tail (s : str) :
  endsInTerminator s →
  matchAt (s ++ tail)
  = match matchAt s with
    | Some (m, r) => Some (m, r ++ tail)
    | None => None
    end.
Proof.
  intros Hs. destruct (matchAt s) as [[m r]|] eqn:E.
  - apply matchAt_Some in E
      as (body & terms & -> & -> & Hb & Hbody & Ht & Hterms & Hr).
    rewrite <- !app_assoc. apply matchAt_split; try done.
    intros c Hc. destruct r as [|x r]; [|now apply Hr].
    destruct tail_plain as [|y l Hy _]; [done|]. simpl in Hc. congruence.
  - apply (matchAt_None _ Hs) in E as (c & s' & -> & Hc).
    unfold matchAt. simpl. now rewrite Hc.
Qed.

Lemma matchAll_tail (fuel : nat) :
  ∀ s, s = [] ∨ endsInTerminator s → length s ≤ fuel →
       matchAll (fuel + length tail) (s ++ tail) = matchAll fuel s.
Proof.
  induction fuel as [|fuel IH]; intros s Hs Hlen.
  - destruct s; [|simpl in Hlen; lia]. simpl.
    rewrite matchAll_plain by done. done.
  - destruct s as [|c s].
    { simpl app. rewrite matchAll_plain by done. done. }
    destruct Hs as [|Hs]; [done|].
    change (matchAll (S fuel + length tail) ((c :: s) ++ tail))
      with (match matchAt ((c :: s) ++ tail) with
            | Some (m, r) => m :: matchAll (fuel + length tail) r
            | None => matchAll (fuel + length tail) (s ++ tail)
            end).
    rewrite (matchAt_tail _ Hs). simpl matchAll.
    destruct (matchAt (c :: s)) as [[m r]|] eqn:E.
    + apply matchAt_Some in E
        as (body & terms & -> & Es & Hb & _ & Ht & _ & _).
      f_equal. apply IH.
      * destruct r as [|x r] using rev_ind; [now left|right].
        destruct Hs as (t & Hl & Ht'). exists t. split; [|done].
        rewrite Es, !app_assoc, last_snoc in Hl. now rewrite last_snoc.
      * apply (f_equal length) in Es. rewrite !length_app in Es.
        simpl in Es, Hlen. destruct body; [done|]. simpl in Es. lia.
    + apply IH; [|simpl in Hlen; lia].
      destruct s as [|x s]; [now left|right].
      destruct Hs as (t & Hl & Ht'). now exists t.
Qed.

Lemma sentences_tail (s : str) :
  endsInTerminator s → regexMatch s ≠ None →
  sentences (s ++ tail) = sentences s.
Proof.
  intros Hs Hm. unfold sentences, regexMatch in *.
  rewrite length_app, matchAll_tail; [|now right|done].
  now destruct (matchAll (length s) s).
Qed.

End Tail.

Section TwoSentences.

Lemma matchAll_step (fuel : nat) (s m r : str) :
  matchAt s = Some (m, r) → matchAll (S fuel) s = m :: matchAll fuel r.
Proof.
  intros E. destruct s as [|c s]; [done|]. simpl matchAll. now rewrite E.
Qed.

(** Two units and a rest without terminator: the rest is in no unit. *)
Lemma sentences_two_units (u1 u2 u3 : str) (t1 t2 : N) :
  u1 ≠ [] → u2 ≠ [] →
  Forall (λ c, isTerminator c = false) u1 →
  Forall (λ c, isTerminator c = false) u2 →
  Forall (λ c, isTerminator c = false) u3 →
  isTerminator t1 = true → isTerminator t2 = true →
  sentences ((u1 ++ [t1]) ++ (u2 ++ [t2]) ++ u3) = [u1 ++ [t1]; u2 ++ [t2]].
Proof.
  intros N1 N2 H1 H2 H3 T1 T2.
  assert (P : ∀ u, Forall (λ c, isTerminator c = false) u →
                   Forall (λ c, negb (isTerminator c) = true) u).
  { intros u Hu. eapply Forall_impl; [exact Hu|]. intros c Hc. now rewrite Hc. }
  assert (E2 : matchAt (u2 ++ [t2]) = Some (u2 ++ [t2], [])).
  { rewrite <- (app_nil_r (u2 ++ [t2])) at 1. rewrite <- app_assoc.
    apply matchAt_split; auto. intros c Hc. discriminate Hc. }
  assert (E1 : matchAt ((u1 ++ [t1]) ++ u2 ++ [t2])
               = Some (u1 ++ [t1], u2 ++ [t2])).
  { rewrite <- app_assoc.
    apply matchAt_split; auto.
    intros c Hc. destruct H2 as [|x u2 Hx _]; [done|]. simpl in Hc. congruence. }
  assert (M : ∀ fuel, matchAll (S (S fuel)) ((u1 ++ [t1]) ++ u2 ++ [t2])
                      = [u1 ++ [t1]; u2 ++ [t2]]).
  { intros fuel. rewrite (matchAll_step _ _ _ _ E1), (matchAll_step _ _ _ _ E2).
    now destruct fuel. }
  rewrite app_assoc. rewrite sentences_tail; try done.
  - unfold sentences, regexMatch. rewrite !length_app. simpl.
    replace (length u1 + 1 + (length u2 + 1))
      with (S (S (length u1 + length u2))) by lia.
    now rewrite M.
  - exists t2. split; [|done]. now rewrite !app_assoc, last_snoc.
  - unfold regexMatch. rewrite !length_app. simpl.
    replace (length u1 + 1 + (length u2 + 1))
      with (S (S (length u1 + length u2))) by lia.
    now rewrite M.
Qed.

End TwoSentences.

(** ** Segmenter *)

Section Segmenter.

Lemma concat_snoc {A} (cur : list (list A)) (s : list A) :
  concat (cur ++ [s]) = concat cur ++ s.
Proof. rewrite concat_app. simpl. now rewrite app_nil_r. Qed.

(** [accumulate] is [groupUnits] with every buffer flattened. *)
Lemma accumulate_groupUnits (ss : list str) :
  ∀ closed cur,
    accumulate ss (map (λ g, newChunk (concat g)) closed) (concat cur)
    = (map (λ g, newChunk (concat g)) (groupUnits ss closed cur).1,
       concat (groupUnits ss closed cur).2).
Proof.
  induction ss as [|s ss IH]; intros closed cur; simpl; [done|].
  destruct (length (concat cur ++ s) <? CHUNK_SIZE_LIMIT) eqn:E.
  - rewrite <- concat_snoc. apply IH.
  - specialize (IH (closed ++ [cur]) [s]).
    rewrite map_app in IH. simpl in IH. rewrite app_nil_r in IH. exact IH.
Qed.

(** The units go into the buffers in order, none lost and none twice. *)
Lemma groupUnits_units (ss : list str) :
  ∀ closed cur,
    concat ((groupUnits ss closed cur).1 ++ [(groupUnits ss closed cur).2])
    = concat (closed ++ [cur]) ++ ss.
Proof.
  induction ss as [|s ss IH]; intros closed cur; simpl.
  - now rewrite app_nil_r.
  - destruct (length (concat cur ++ s) <? CHUNK_SIZE_LIMIT).
    + rewrite IH, !concat_snoc. now rewrite <- !app_assoc.
    + rewrite IH, !concat_snoc. simpl. now rewrite <- !app_assoc.
Qed.

Lemma groupUnits_underLimit (ss : list str) :
  ∀ closed cur,
    Forall underLimit closed → underLimit cur →
    Forall underLimit
      ((groupUnits ss closed cur).1 ++ [(groupUnits ss closed cur).2]).
Proof.
  induction ss as [|s ss IH]; intros closed cur Hcl Hcur; simpl.
  - apply Forall_app; split; [done|]. now constructor.
  - destruct (length (concat cur ++ s) <? CHUNK_SIZE_LIMIT) eqn:E.
    + apply IH; [done|]. intros _. rewrite concat_snoc.
      now apply Nat.ltb_lt.
    + apply IH.
      * apply Forall_app; split; [done|]. now constructor.
      * intros H. simpl in H. lia.
Qed.

End Segmenter.

(** C2. The segmenter does not emit every part of the input: the text after
    the last sentence terminator is matched by no unit and reaches no chunk.
    Whatever terminator-free text follows a text that ends in a terminator
    and has a unit, the chunks are those of the text without it. For the
    text [Hi. Yo] the only chunk is [Hi.]; a text with no terminator at all
    is one unit. *)
Theorem trailing_text_without_terminator_dropped :
  (∀ s tail : str,
     endsInTerminator s → regexMatch s ≠ None →
     Forall (λ c, isTerminator c = false) tail →
     splitChunks (s ++ tail) = splitChunks s)
  ∧ sentences (js "Hi. Yo") = [js "Hi."]
  ∧ chunkTexts (js "Hi. Yo") = [js "Hi."]
  ∧ chunkTexts (js "Hi Yo") = [js "Hi Yo"].
Proof.
  split.
  - intros s tail Hs Hm Ht. unfold splitChunks.
    now rewrite sentences_tail.
  - repeat split; vm_compute; reflexivity.
Qed.

(** C3. A text made of a first sentence under the limit, a second sentence
    that does not fit with it, and a rest without terminator yields the two
    sentences as chunks and nothing else (one chunk when the second sentence
    is blank). On the 450-character text with terminators at positions 180
    and 360 the chunks have 181 and 180 characters: the 89 characters after
    the second terminator are in no chunk. *)
Theorem scenario_450_yields_two_chunks :
  (∀ (u1 u2 u3 : str) (t1 t2 : N),
     u1 ≠ [] → u2 ≠ [] →
     Forall (λ c, isTerminator c = false) u1 →
     Forall (λ c, isTerminator c = false) u2 →
     Forall (λ c, isTerminator c = false) u3 →
     isTerminator t1 = true → isTerminator t2 = true →
     length u1 + 1 < CHUNK_SIZE_LIMIT →
     CHUNK_SIZE_LIMIT ≤ length u1 + length u2 + 2 →
     chunkTexts ((u1 ++ [t1]) ++ (u2 ++ [t2]) ++ u3)
     = trim (u1 ++ [t1])
       :: (if truthy (trim (u2 ++ [t2])) then [trim (u2 ++ [t2])] else []))
  ∧ length scenarioText = 450
  ∧ scenarioText !! 180 = Some 46%N ∧ scenarioText !! 360 = Some 46%N
  ∧ length (filter (λ c, isTerminator c = true) scenarioText) = 2
  ∧ map length (chunkTexts scenarioText) = [181; 180].
Proof.
  split.
  - intros u1 u2 u3 t1 t2 N1 N2 H1 H2 H3 T1 T2 L1 L2.
    unfold chunkTexts, splitChunks.
    rewrite sentences_two_units by done. simpl accumulate.
    assert (E1 : (length (u1 ++ [t1]) <? CHUNK_SIZE_LIMIT) = true).
    { apply Nat.ltb_lt. rewrite length_app. simpl. lia. }
    assert (E2 : (length ((u1 ++ [t1]) ++ u2 ++ [t2]) <? CHUNK_SIZE_LIMIT)
                 = false).
    { apply Nat.ltb_ge. rewrite !length_app. simpl. lia. }
    rewrite E1, E2.
    now destruct (truthy (trim (u2 ++ [t2]))).
  - repeat split; vm_compute; reflexivity.
Qed.

(** C5, as stated, fails: a single unit of 401 characters is a chunk of 401
    characters, more than twice the limit. *)
Lemma chunk_longer_than_twice_limit :
  ¬ (∀ t : str,
       Forall (λ c, length c ≤ 2 * CHUNK_SIZE_LIMIT) (chunkTexts t)).
Proof.
  intros H. specialize (H (repeat 97%N 401)).
  assert (E : chunkTexts (repeat 97%N 401) = [[]; repeat 97%N 401])
    by (vm_compute; reflexivity).
  rewrite E in H.
  pose proof (Forall_lookup_1 _ _ 1 _ H eq_refl) as H1. cbv beta in H1.
  rewrite length_repeat_N in H1. unfold CHUNK_SIZE_LIMIT in H1. lia.
Qed.

(** C5, amended. Every chunk is the trimmed concatenation of a run of
    consecutive units, the runs covering the units in order; a chunk built
    from more than one unit has fewer than 200 characters. Only a chunk that
    is a single unit can reach the limit, and its length is unbounded. *)
Theorem multi_unit_chunks_under_limit (t : str) :
  ∃ (groups : list (list str)) (last : list str),
    concat (groups ++ [last]) = sentences t ∧
    chunkTexts t
    = map (λ g, trim (concat g)) groups
      ++ (if truthy (trim (concat last)) then [trim (concat last)] else []) ∧
    Forall (λ g, 1 < length g →
                 length (trim (concat g)) ≤ length (concat g)
                 ∧ length (concat g) < CHUNK_SIZE_LIMIT)
           (groups ++ [last]).
Proof.
  exists (groupUnits (sentences t) [] []).1, (groupUnits (sentences t) [] []).2.
  split; [|split].
  - now rewrite groupUnits_units.
  - unfold chunkTexts, splitChunks.
    pose proof (accumulate_groupUnits (sentences t) [] []) as E.
    simpl in E. rewrite E.
    destruct (truthy _); rewrite ?map_app, map_map; simpl; [done|].
    now rewrite app_nil_r.
  - eapply Forall_impl.
    + apply groupUnits_underLimit; [constructor|]. intros H; simpl in H; lia.
    + intros g Hg H1. split; [apply trim_length|]. now apply Hg.
Qed.

(** ** Loader *)

Section Loader.

Lemma findIndex_Some {A} (f : A → nat → bool) (l : list A) :
  ∀ i t, findIndex f l i = Some t →
    i ≤ t ∧ ∃ c, l !! (t - i) = Some c ∧ f c t = true
    ∧ ∀ j c', i ≤ j < t → l !! (j - i) = Some c' → f c' j = false.
Proof.
  induction l as [|x l IH]; intros i t H; simpl in H; [done|].
  destruct (f x i) eqn:E.
  - injection H as <-. split; [lia|]. exists x.
    rewrite Nat.sub_diag. repeat split; [done|]. intros; lia.
  - destruct (IH _ _ H) as (Hle & c & Hc & Hf & Hbefore).
    split; [lia|]. exists c.
    replace (t - i) with (S (t - S i)) by lia.
    repeat split; [done..|]. intros j c' Hj Hl.
    destruct (decide (j = i)) as [->|Hne].
    + rewrite Nat.sub_diag in Hl. simpl in Hl. congruence.
    + replace (j - i) with (S (j - S i)) in Hl by lia.
      apply (Hbefore j c'); [lia|done].
Qed.

Lemma findIndex_None {A} (f : A → nat → bool) (l : list A) :
  ∀ i, findIndex f l i = None →
    ∀ j c, l !! j = Some c → f c (i + j) = false.
Proof.
  induction l as [|x l IH]; intros i H j c Hl; simpl in H; [done|].
  destruct (f x i) eqn:E; [done|].
  destruct j as [|j]; simpl in Hl.
  - injection Hl as <-. now rewrite Nat.add_0_r.
  - replace (i + S j) with (S i + j) by lia. now apply IH.
Qed.

Lemma countLoading_mark (l : list AudioChunk) :
  ∀ t c, l !! t = Some c → status c ≠ loading →
    countLoading (mapAt (withStatus loading) t l) = S (countLoading l).
Proof.
  unfold countLoading, mapAt.
  induction l as [|x l IH]; intros [|t] c Hl Hc; try done.
  - injection Hl as ->.
    change (alter (withStatus loading) 0 (c :: l))
      with (withStatus loading c :: l).
    rewrite !filter_cons. simpl.
    destruct (decide (loading = loading)); [|done].
    now destruct (decide (status c = loading)).
  - change (alter (withStatus loading) (S t) (x :: l))
      with (x :: alter (withStatus loading) t l).
    change ((x :: l) !! S t) with (l !! t) in Hl.
    rewrite !filter_cons.
    destruct (decide (status x = loading)); simpl; erewrite IH; eauto.
Qed.

Lemma mapAt_insert (f : AudioChunk → AudioChunk) (l : list AudioChunk) :
  ∀ t c, l !! t = Some c → mapAt f t l = <[t := f c]> l.
Proof.
  unfold mapAt.
  induction l as [|x l IH]; intros [|t] c Hl; simpl in *; try done.
  - now injection Hl as ->.
  - f_equal. now apply IH.
Qed.

Lemma loaderTarget_pending (p : Player) (t : nat) :
  loaderTarget p = Some t →
  ∃ c, chunks p !! t = Some c ∧ status c = pending
       ∧ currentChunkIdx p ≤ t
       ∧ ∀ j c', currentChunkIdx p ≤ j < t →
                 chunks p !! j = Some c' → status c' ≠ pending.
Proof.
  intros H. apply findIndex_Some in H as (_ & c & Hc & Hf & Hbefore).
  rewrite Nat.sub_0_r in Hc. exists c.
  apply andb_prop in Hf as [Hi Hs].
  apply bool_decide_eq_true in Hi, Hs.
  repeat split; [done..|]. intros j c' Hj Hl Hp.
  specialize (Hbefore j c'). rewrite Nat.sub_0_r in Hbefore.
  assert (E : bool_decide (currentChunkIdx p ≤ j)
              && bool_decide (status c' = pending) = false)
    by (apply Hbefore; [lia|done]).
  rewrite !bool_decide_eq_true_2 in E by (done || lia). done.
Qed.

Lemma loaderTarget_none (p : Player) :
  loaderTarget p = None →
  ∀ j c, currentChunkIdx p ≤ j → chunks p !! j = Some c →
         status c ≠ pending.
Proof.
  intros H j c Hj Hl Hp.
  pose proof (findIndex_None _ _ _ H j c Hl) as E. simpl in E.
  rewrite !bool_decide_eq_true_2 in E by (done || lia). done.
Qed.

End Loader.

(** C1, as stated, fails: after mounting with a two-chunk text the loader
    effect runs twice in a row and both chunks are [loading], with both
    requests pending. *)
Lemma two_chunks_loading_at_once :
  ¬ (∀ p, reachable p → countLoading (chunks p) ≤ 1).
Proof.
  intros H.
  specialize (H (run twoLoadsTrace (initialPlayer Kore))).
  assert (E : countLoading (chunks (run twoLoadsTrace (initialPlayer Kore))) = 2)
    by (vm_compute; reflexivity).
  rewrite E in H. enough (2 ≤ 1) by lia. apply H. now exists Kore, twoLoadsTrace.
Qed.

(** C1, amended. One run of the loader effect marks at most one chunk
    [loading]: the first [pending] chunk at or after [currentChunkIdx]. It
    sends one request for it and leaves every other chunk as it was, so the
    number of [loading] chunks grows by one; when no such chunk exists the
    run changes nothing. The run does not wait for requests in flight. *)
Theorem loader_run_marks_first_pending (p : Player) :
  match loaderTarget p with
  | Some t =>
      ∃ c, chunks p !! t = Some c ∧ status c = pending
           ∧ currentChunkIdx p ≤ t
           ∧ (∀ j c', currentChunkIdx p ≤ j < t →
                      chunks p !! j = Some c' → status c' ≠ pending)
           ∧ chunks (loaderEffect p) = <[t := withStatus loading c]> (chunks p)
           ∧ countLoading (chunks (loaderEffect p)) = S (countLoading (chunks p))
           ∧ loads (loaderEffect p)
             = loads p
               ++ [mkLoad t (text c) (voice p) (currentChunkIdx p) false]
  | None =>
      loaderEffect p = p
      ∧ ∀ j c, currentChunkIdx p ≤ j → chunks p !! j = Some c →
               status c ≠ pending
  end.
Proof.
  destruct (loaderTarget p) as [t|] eqn:E.
  - destruct (loaderTarget_pending _ _ E) as (c & Hc & Hs & Hi & Hb).
    exists c. unfold loaderEffect. rewrite E, Hc. simpl.
    repeat split; try done.
    + now apply mapAt_insert.
    + eapply countLoading_mark; [done|]. congruence.
  - split; [unfold loaderEffect; now rewrite E|].
    now apply loaderTarget_none.
Qed.

(** ** Playback controller *)

Section Controller.

(** A state that agrees with [p] on the chunk count, the index, the
    source and the started nodes inherits the invariant. *)
Lemma playerInvariant_frame (p q : Player) :
  length (chunks q) = length (chunks p) →
  currentChunkIdx q = currentChunkIdx p →
  sourceRef q = sourceRef p →
  started q = started p →
  playerInvariant p → playerInvariant q.
Proof.
  intros Hl Hi Hs Hst [Hidx [Hstarted Hcap]].
  split; [|split].
  - intros Hne. rewrite Hl, Hi. apply Hidx.
    intros E. rewrite E in Hl. now destruct (chunks q).
  - now rewrite Hst, Hs.
  - intros n Hn. rewrite Hl, Hi. apply Hcap. now rewrite <- Hs.
Qed.

Lemma mapAt_length (f : AudioChunk → AudioChunk) (k : nat)
    (l : list AudioChunk) : length (mapAt f k l) = length l.
Proof. apply length_alter. Qed.

Lemma initialPlayer_invariant (v : TtsVoice) :
  playerInvariant (initialPlayer v).
Proof. split; [done|]. split; [done|]. intros n Hn. discriminate Hn. Qed.

(** After [cleanupAudio] no node is referenced or started; chunks, index
    and playback state are untouched. *)
Lemma cleanupAudio_spec (p : Player) :
  sourceInvariant p →
  sourceRef (cleanupAudio p) = None
  ∧ started (cleanupAudio p) = []
  ∧ chunks (cleanupAudio p) = chunks p
  ∧ currentChunkIdx (cleanupAudio p) = currentChunkIdx p.
Proof.
  intros [Hst _]. unfold cleanupAudio.
  destruct (sourceRef p) as [n|] eqn:Hs; simpl in Hst.
  - assert (F : filter (λ m, nodeId m ≠ nodeId n) (started p) = []).
    { rewrite Hst, filter_cons. now destruct (decide (nodeId n ≠ nodeId n)). }
    rewrite F. simpl. now destruct (audioContext p) as [[]|].
  - destruct (audioContext p) as [[]|]; simpl; now rewrite ?Hs, ?Hst.
Qed.

Lemma cleanupAudio_invariant (p : Player) :
  playerInvariant p → playerInvariant (cleanupAudio p).
Proof.
  intros [Hidx Hsrc].
  destruct (cleanupAudio_spec p Hsrc) as (Hs & Hst & Hc & Hi).
  split; [now rewrite Hc, Hi|].
  split; [now rewrite Hs, Hst|]. intros n Hn. congruence.
Qed.

Lemma splitEffect_invariant (t : str) (p : Player) :
  playerInvariant p → playerInvariant (splitEffect t p).
Proof.
  intros Hp. unfold splitEffect.
  destruct (negb (truthy t)); [now apply cleanupAudio_invariant|].
  destruct Hp as [_ Hsrc].
  destruct (cleanupAudio_spec p Hsrc) as (Hs & Hst & _ & _).
  split; [|split]; simpl.
  - destruct (splitChunks t); [done|simpl; lia].
  - now rewrite Hs, Hst.
  - intros n Hn. congruence.
Qed.

Lemma loaderEffect_invariant (p : Player) :
  playerInvariant p → playerInvariant (loaderEffect p).
Proof.
  unfold loaderEffect.
  destruct (loaderTarget p) as [t|]; [|done].
  destruct (chunks p !! t); [|done].
  apply playerInvariant_frame; simpl; auto using mapAt_length.
Qed.

Lemma loadSettled_invariant (k : nat) (o : LoadOutcome) (p : Player) :
  playerInvariant p → playerInvariant (loadSettled k o p).
Proof.
  unfold loadSettled, loadFailed.
  destruct (loads p !! k) as [l|]; [|done].
  destruct (decoding l), o; simpl; try done;
    repeat match goal with
           | |- context [if ?b then _ else _] => destruct b
           end;
    apply playerInvariant_frame; simpl; auto using mapAt_length.
Qed.

Lemma playCurrentChunk_invariant (ok : bool) (p : Player) :
  playerInvariant p → playerInvariant (playCurrentChunk ok p).
Proof.
  intros Hp. unfold playCurrentChunk.
  assert (Hcreate :
    playerInvariant
      match chunks p !! currentChunkIdx p with
      | Some chunk =>
          match buffer chunk with
          | Some b =>
              match sourceRef p with
              | Some _ => p
              | None =>
                  let source :=
                    mkSource (nextNodeId p) b (currentChunkIdx p) (chunks p) in
                  setSourceRef (Some source)
                    (setStarted (started p ++ [source])
                      (setNextNodeId (S (nextNodeId p)) p))
              end
          | None => p
          end
      | None => p
      end).
  { destruct (chunks p !! currentChunkIdx p) as [c|]; [|done].
    destruct (buffer c) as [b|]; [|done].
    destruct (sourceRef p) eqn:Hs; [done|].
    destruct Hp as [Hidx [Hst _]]. rewrite Hs in Hst. simpl in Hst.
    split; [exact Hidx|]. split; simpl.
    - now rewrite Hst.
    - intros n Hn. now injection Hn as <-. }
  destruct (audioContext p) as [[]|]; [done| |done|done].
  destruct ok; [|done]. revert Hp. now apply playerInvariant_frame.
Qed.

Lemma sourceEnded_invariant (k : nat) (p : Player) :
  playerInvariant p → playerInvariant (sourceEnded k p).
Proof.
  intros Hp. unfold sourceEnded.
  destruct (audioContext p) as [[]|]; [|done..].
  destruct (started p !! k) as [n|] eqn:Hk; [|done].
  destruct Hp as [Hidx [Hst Hcap]].
  destruct (sourceRef p) as [n'|] eqn:Hs; simpl in Hst;
    rewrite Hst in Hk; [|done].
  destruct k as [|k]; [|done]. injection Hk as ->.
  destruct (Hcap n eq_refl) as [Hci Hcl].
  unfold onended. rewrite Hst. simpl.
  destruct (Z.ltb_spec (Z.of_nat (capturedIdx n))
              (Z.of_nat (length (capturedChunks n)) - 1)) as [Hlt|Hge].
  - split; [|split]; simpl; [intros _; lia|done|congruence].
  - split; [|split]; simpl; [|done|congruence].
    intros Hne. destruct (chunks p); [done|simpl; lia].
Qed.

Lemma handlePause_invariant (ok : bool) (p : Player) :
  playerInvariant p → playerInvariant (handlePause ok p).
Proof.
  unfold handlePause.
  destruct (audioContext p) as [[]|]; try done.
  destruct ok; [|done]. now apply playerInvariant_frame.
Qed.

Lemma handleResume_invariant (ok : bool) (p : Player) :
  playerInvariant p → playerInvariant (handleResume ok p).
Proof.
  unfold handleResume.
  destruct (audioContext p) as [[]|]; try destruct ok;
    try done; now apply playerInvariant_frame.
Qed.

Lemma step_invariant (p : Player) (e : Event) :
  playerInvariant p → playerInvariant (step p e).
Proof.
  intros Hp. destruct e; simpl.
  - now apply splitEffect_invariant.
  - revert Hp. now apply playerInvariant_frame.
  - now apply loaderEffect_invariant.
  - now apply loadSettled_invariant.
  - unfold playbackEffect.
    destruct (_ && _); [now apply playCurrentChunk_invariant|done].
  - now apply sourceEnded_invariant.
  - destruct (loadingError p); [done|].
    destruct (bool_decide (chunks p = [])); [done|].
    destruct (bool_decide (playbackState p = playing));
      [now apply handlePause_invariant|now apply handleResume_invariant].
  - destruct (loadingError p); [|done].
    revert Hp. now apply playerInvariant_frame.
  - now apply cleanupAudio_invariant.
Qed.

Lemma run_invariant (es : list Event) :
  ∀ p, playerInvariant p → playerInvariant (run es p).
Proof.
  induction es as [|e es IH]; intros p Hp; [done|].
  apply IH. now apply step_invariant.
Qed.

Lemma reachable_invariant (p : Player) :
  reachable p → playerInvariant p.
Proof.
  intros (v & es & ->). apply run_invariant, initialPlayer_invariant.
Qed.

Lemma playerInvariant_session (p : Player) :
  playerInvariant p → sessionInvariant p.
Proof.
  intros [Hidx [Hst _]]. split; [done|]. intros _. rewrite Hst.
  destruct (sourceRef p); simpl; lia.
Qed.

End Controller.

(** As long as every [ended] event is delivered in order, every operation
    (a new text, the end of a chunk's audio, pause, resume, retry, and the
    effects and load results in between) leads to a state where
    [currentChunkIdx] is below the number of chunks when there are chunks,
    and at most one source is started while playing; and while a source is
    started [playCurrentChunk] constructs no other. *)
Theorem session_invariant_preserved (p : Player) (e : Event) :
  reachable p →
  sessionInvariant (step p e)
  ∧ (started p ≠ [] →
     ∀ ok, started (playCurrentChunk ok p) = started p
           ∧ nextNodeId (playCurrentChunk ok p) = nextNodeId p).
Proof.
  intros Hr. apply reachable_invariant in Hr as Hp. split.
  - now apply playerInvariant_session, step_invariant.
  - intros Hne ok. destruct Hp as [_ [Hst _]].
    unfold playCurrentChunk.
    destruct (sourceRef p) eqn:Hs; simpl in Hst; [|done].
    destruct (audioContext p) as [[]|]; try done.
    + destruct (chunks p !! currentChunkIdx p) as [c|]; [|done].
      now destruct (buffer c).
    + now destruct ok.
    + destruct (chunks p !! currentChunkIdx p) as [c|]; [|done].
      now destruct (buffer c).
Qed.

(** The in-order invariant at a state where chunk 0 of two plays and its
    audio ends. *)
Lemma session_invariant_witness :
  reachable (run chunkZeroPlaying (initialPlayer Kore))
  ∧ (sessionInvariant
       (step (run chunkZeroPlaying (initialPlayer Kore)) (SourceEnded 0))
     ∧ (started (run chunkZeroPlaying (initialPlayer Kore)) ≠ [] →
        ∀ ok,
          started (playCurrentChunk ok (run chunkZeroPlaying (initialPlayer Kore)))
          = started (run chunkZeroPlaying (initialPlayer Kore))
          ∧ nextNodeId
              (playCurrentChunk ok (run chunkZeroPlaying (initialPlayer Kore)))
            = nextNodeId (run chunkZeroPlaying (initialPlayer Kore)))).
Proof.
  assert (Hr : reachable (run chunkZeroPlaying (initialPlayer Kore)))
    by (exists Kore, chunkZeroPlaying; reflexivity).
  split; [exact Hr|].
  exact (session_invariant_preserved
           (run chunkZeroPlaying (initialPlayer Kore)) (SourceEnded 0) Hr).
Defined.

(** A run of the host in which no [ended] event is late is a run of the
    in-order events. *)
Lemma hostRun_in_order (es : list Event) (p : Player) :
  hostRun (map InOrder es) p = run es p.
Proof.
  revert p. induction es as [|e es IH]; intros p; [reflexivity|].
  simpl. apply IH.
Qed.

Lemma reachable_hostReachable (p : Player) :
  reachable p → hostReachable p.
Proof.
  intros (v & es & ->). exists v, (map InOrder es).
  symmetry. apply hostRun_in_order.
Qed.

(** C7. The session invariant is not kept when an [ended] event arrives
    late. Chunk 0 of a two-chunk text plays; a new text of one chunk
    arrives and [cleanupAudio] stops the node without clearing its
    handler; then the node's [ended] event is delivered. The handler tests
    the index and the chunk list it captured (0 of 2) and increments the
    index of the new session: [currentChunkIdx] is 1 with one chunk. The
    loader, which scans from the index on, then finds nothing to load. *)
Theorem late_ended_breaks_session_invariant :
  hostReachable (hostRun lateEndedTrace (initialPlayer Kore))
  ∧ map text (chunks (hostRun lateEndedTrace (initialPlayer Kore)))
    = [js "New text."]
  ∧ currentChunkIdx (hostRun lateEndedTrace (initialPlayer Kore)) = 1
  ∧ ¬ sessionInvariant (hostRun lateEndedTrace (initialPlayer Kore))
  ∧ loaderTarget (hostRun lateEndedTrace (initialPlayer Kore)) = None
  ∧ map status (chunks (hostRun lateEndedTrace (initialPlayer Kore)))
    = [pending].
Proof.
  split; [now exists Kore, lateEndedTrace|].
  split; [vm_compute; reflexivity|].
  split; [vm_compute; reflexivity|].
  split; [|split; vm_compute; reflexivity].
  intros [Hidx _].
  assert (E : currentChunkIdx (hostRun lateEndedTrace (initialPlayer Kore)) = 1)
    by (vm_compute; reflexivity).
  assert (L : length (chunks (hostRun lateEndedTrace (initialPlayer Kore))) = 1)
    by (vm_compute; reflexivity).
  rewrite E, L in Hidx. enough (1 < 1) by lia. apply Hidx.
  intros Hnil. rewrite Hnil in L. discriminate L.
Qed.

(** C9. [handlePause] never touches the chunks, the index, the source or
    the started nodes. It sets [playbackState] to [paused] (and the context
    to [suspended]) when the context was running and [suspend()] succeeded;
    in every other case (no context, a context that is not running, a
    rejected [suspend()]) the whole state is unchanged. *)
Theorem pause_is_atomic (ok : bool) (p : Player) :
  chunks (handlePause ok p) = chunks p
  ∧ currentChunkIdx (handlePause ok p) = currentChunkIdx p
  ∧ sourceRef (handlePause ok p) = sourceRef p
  ∧ started (handlePause ok p) = started p
  ∧ if bool_decide (audioContext p = Some running) && ok
    then playbackState (handlePause ok p) = paused
         ∧ audioContext (handlePause ok p) = Some suspended
    else handlePause ok p = p.
Proof.
  unfold handlePause.
  destruct (audioContext p) as [[]|]; destruct ok; simpl; repeat split.
Qed.

(** C4. The Retry handler changes no chunk, so a chunk in [error] stays in
    [error]; the loader looks for [pending] chunks only and sends nothing.
    After the only load of a one-chunk session failed, Retry followed by
    the loader effect leaves the chunk in [error] with no request pending. *)
Theorem retry_does_not_reload_failed_chunk :
  (∀ p, chunks (step p ClickRetry) = chunks p
        ∧ loadingError (step p ClickRetry) = loadingError p
        ∧ loaderTarget (step p ClickRetry) = loaderTarget p)
  ∧ map status (chunks (run failedLoadTrace (initialPlayer Kore))) = [error]
  ∧ currentChunkIdx (run failedLoadTrace (initialPlayer Kore)) = 0
  ∧ loadingError (run failedLoadTrace (initialPlayer Kore)) = true
  ∧ map status
      (chunks (run (failedLoadTrace ++ [ClickRetry; LoaderEffect])
                 (initialPlayer Kore))) = [error]
  ∧ loads (run (failedLoadTrace ++ [ClickRetry; LoaderEffect])
             (initialPlayer Kore)) = [].
Proof.
  split.
  - intros p. simpl. destruct (loadingError p) eqn:E; repeat split; done.
  - repeat split; vm_compute; reflexivity.
Qed.

(** ** The stalled player *)

Section Stall.

Lemma stalled_loaderEffect (p : Player) : stalled p → loaderEffect p = p.
Proof.
  intros (Hs & Hi & _). unfold loaderEffect, loaderTarget.
  destruct (chunks p) as [|c0 [|c1 [|]]]; try done.
  injection Hs as H0 H1. simpl. now rewrite H0, H1, Hi.
Qed.

Lemma stalled_step (p : Player) (e : Event) :
  isTextChanged e = false → stalled p → stalled (step p e).
Proof.
  intros He Hp. destruct e; simpl; [done|exact Hp|..].
  - now rewrite stalled_loaderEffect.
  - pose proof Hp as (_ & _ & _ & _ & _ & Hl).
    unfold loadSettled. now rewrite Hl.
  - pose proof Hp as (_ & _ & Hr & _).
    unfold playbackEffect. rewrite Hr. now rewrite andb_false_r.
  - pose proof Hp as (_ & _ & _ & _ & Hst & _).
    unfold sourceEnded. rewrite Hst. now destruct (audioContext p) as [[]|].
  - destruct (loadingError p); [done|].
    destruct (bool_decide (chunks p = [])); [done|].
    unfold handlePause, handleResume.
    destruct (bool_decide (playbackState p = playing));
      destruct (audioContext p) as [[]|]; try destruct ok; exact Hp.
  - destruct (loadingError p); exact Hp.
  - destruct Hp as (Hs & Hi & Hr & Hsrc & Hst & Hl).
    unfold cleanupAudio. rewrite Hsrc.
    destruct (audioContext p) as [[]|]; repeat split; done.
Qed.

Lemma stalled_run (es : list Event) :
  ∀ p, Forall (λ e, isTextChanged e = false) es →
       stalled p → stalled (run es p).
Proof.
  induction es as [|e es IH]; intros p Hes Hp; [done|].
  inversion Hes; subst. apply IH; [done|]. now apply stalled_step.
Qed.

End Stall.

(** C6. While chunk 0 of a two-chunk session plays, chunk 1 arrives and is
    [ready] with a buffer. When chunk 0 ends, [currentChunkIdx] becomes 1
    but [isReadyToPlay] is set from the chunk list captured when chunk 0
    started, where chunk 1 had no buffer: it becomes false. The effects
    that follow change nothing, and whatever happens next, short of a new
    text, chunk 1 is never played. *)
Theorem decoded_next_chunk_is_not_played :
  currentChunkIdx (run chunkZeroPlaying (initialPlayer Kore)) = 0
  ∧ length (started (run chunkZeroPlaying (initialPlayer Kore))) = 1
  ∧ hasBuffer (chunks (run chunkZeroPlaying (initialPlayer Kore))) 1 = true
  ∧ currentChunkIdx
      (step (run chunkZeroPlaying (initialPlayer Kore)) (SourceEnded 0)) = 1
  ∧ playbackState
      (step (run chunkZeroPlaying (initialPlayer Kore)) (SourceEnded 0))
    = playing
  ∧ hasBuffer
      (chunks (step (run chunkZeroPlaying (initialPlayer Kore)) (SourceEnded 0)))
      1 = true
  ∧ isReadyToPlay
      (step (run chunkZeroPlaying (initialPlayer Kore)) (SourceEnded 0))
    = false
  ∧ run (chunkZeroPlaying ++ afterChunkZero) (initialPlayer Kore)
    = step (run chunkZeroPlaying (initialPlayer Kore)) (SourceEnded 0)
  ∧ ∀ es, Forall (λ e, isTextChanged e = false) es →
          stalled (run (chunkZeroPlaying ++ afterChunkZero ++ es)
                     (initialPlayer Kore)).
Proof.
  do 8 (split; [vm_compute; reflexivity|]).
  intros es Hes. rewrite app_assoc. unfold run. rewrite foldl_app.
  apply (stalled_run es _ Hes).
  repeat split; vm_compute; reflexivity.
Qed.

(** ** Decoder *)

Section DecoderFacts.

Import Decoder.

Lemma pairs_ind {A} (P : list A → Prop) :
  P [] → (∀ x, P [x]) → (∀ x y l, P l → P (x :: y :: l)) → ∀ l, P l.
Proof.
  intros H0 H1 H2 l.
  enough (P l ∧ ∀ x, P (x :: l)) by tauto.
  induction l as [|y l [IH1 IH2]]; [auto|].
  split; [apply IH2|]. intros x. now apply H2.
Qed.

Lemma int16le_range (lo hi : byte) :
  (-32768 ≤ int16le lo hi ≤ 32767)%Z.
Proof.
  unfold int16le.
  pose proof (Byte.to_N_bounded lo). pose proof (Byte.to_N_bounded hi).
  destruct (Z.ltb_spec (Z.of_N (Byte.to_N lo) + 256 * Z.of_N (Byte.to_N hi))
              32768); lia.
Qed.

(** The value is the two's-complement reading of the 16 bits [hi lo]. *)
Lemma int16le_mod (lo hi : byte) :
  (int16le lo hi mod 65536
   = Z.of_N (Byte.to_N lo) + 256 * Z.of_N (Byte.to_N hi))%Z.
Proof.
  unfold int16le.
  pose proof (Byte.to_N_bounded lo). pose proof (Byte.to_N_bounded hi).
  destruct (Z.ltb_spec (Z.of_N (Byte.to_N lo) + 256 * Z.of_N (Byte.to_N hi))
              32768).
  - apply Z.mod_small. lia.
  - symmetry. apply (Z.mod_unique _ _ (-1)); lia.
Qed.

Lemma normalize_range (v : Z) :
  (-32768 ≤ v ≤ 32767)%Z → (-1 <= normalize v)%Q ∧ (normalize v < 1)%Q.
Proof.
  intros Hv. unfold normalize, Qle, Qlt. simpl. lia.
Qed.

(** A payload has samples exactly when its length is even, and then one
    sample for every two bytes. *)
Lemma pcmSamples_spec (bytes : list byte) :
  match pcmSamples bytes with
  | Some l =>
      Nat.even (length bytes) = true
      ∧ length l = length bytes / 2
      ∧ (∀ i, l !! i = sampleAt bytes i)
      ∧ Forall (λ s, (-1 <= s)%Q ∧ (s < 1)%Q) l
  | None => Nat.even (length bytes) = false
  end.
Proof.
  induction bytes as [| x | lo hi rest IH] using pairs_ind; [|done|].
  - simpl. split; [done|]. split; [done|]. split; [now intros i|constructor].
  - change (pcmSamples (lo :: hi :: rest)) with
      (match pcmSamples rest with
       | Some l => Some (normalize (int16le lo hi) :: l)
       | None => None
       end).
    destruct (pcmSamples rest) as [l|]; [|exact IH].
    destruct IH as (He & Hl & Hs & Hr).
    split; [exact He|]. split; [|split].
    + change (length (lo :: hi :: rest)) with (2 + length rest).
      change 2 with (1 * 2) at 1. rewrite Nat.div_add_l by lia.
      simpl. now rewrite Hl.
    + intros [|i]; [done|].
      change ((normalize (int16le lo hi) :: l) !! S i) with (l !! i).
      rewrite Hs. unfold sampleAt.
      replace (2 * S i) with (S (S (2 * i))) by lia.
      replace (S (S (2 * i)) + 1) with (S (S (2 * i + 1))) by lia.
      done.
    + constructor; [|exact Hr]. apply normalize_range, int16le_range.
Qed.

Lemma sampleAt_spec (bytes : list byte) (i : nat) (lo hi : byte) :
  bytes !! (2 * i) = Some lo → bytes !! (2 * i + 1) = Some hi →
  ∃ v : Z,
    sampleAt bytes i = Some (v # 32768)%Q
    ∧ (-32768 ≤ v ≤ 32767)%Z
    ∧ (v mod 65536 = Z.of_N (Byte.to_N lo) + 256 * Z.of_N (Byte.to_N hi))%Z.
Proof.
  intros Hlo Hhi. exists (int16le lo hi). unfold sampleAt.
  rewrite Hlo, Hhi. split; [done|].
  split; [apply int16le_range|apply int16le_mod].
Qed.

End DecoderFacts.

(** C8. With an audio context available, a payload of even length decodes
    to a single-channel 24000 Hz buffer with one sample for every two
    bytes. The [i]-th sample is [v / 32768] for the integer [v] between
    -32768 and 32767 that is congruent modulo 65536 to byte [2i] plus 256
    times byte [2i+1] (the little-endian signed 16-bit reading), and lies
    in [-1, 1]. A payload of odd length fails with [DecodeError], as does
    every payload without a context. *)
Theorem decode_pcm16 (bytes : list byte) (ctx : option ContextState) :
  match Decoder.decodeAudioData bytes ctx with
  | inr b =>
      Nat.even (length bytes) = true
      ∧ Decoder.contextAvailable ctx = true
      ∧ length (channelData b) = length bytes / 2
      ∧ sampleRate b = 24000%N
      ∧ numberOfChannels b = 1%N
      ∧ (∀ i, channelData b !! i = Decoder.sampleAt bytes i)
      ∧ (∀ i lo hi,
           bytes !! (2 * i) = Some lo → bytes !! (2 * i + 1) = Some hi →
           ∃ v : Z,
             channelData b !! i = Some (v # 32768)%Q
             ∧ (-32768 ≤ v ≤ 32767)%Z
             ∧ (v mod 65536
                = Z.of_N (Byte.to_N lo) + 256 * Z.of_N (Byte.to_N hi))%Z)
      ∧ Forall (λ s, (-1 <= s)%Q ∧ (s <= 1)%Q) (channelData b)
  | inl e =>
      e = Decoder.DecodeError
      ∧ (Nat.even (length bytes) = false
         ∨ Decoder.contextAvailable ctx = false)
  end.
Proof.
  unfold Decoder.decodeAudioData.
  pose proof (pcmSamples_spec bytes) as H.
  destruct ctx as [[]|]; simpl; try (split; [done|now right]);
    destruct (Decoder.pcmSamples bytes) as [l|]; try (split; [done|now left]);
    destruct H as (He & Hl & Hs & Hr);
    (split; [done|]); (split; [done|]); (split; [done|]); (split; [done|]);
    (split; [done|]); (split; [done|]);
    (split;
     [intros i lo hi Hlo Hhi; rewrite Hs;
      exact (sampleAt_spec bytes i lo hi Hlo Hhi)
     |(eapply Forall_impl; [exact Hr|]); intros s [H1 H2];
      (split; [done|now apply Qlt_le_weak])]).
Qed.

(** The byte pair [0xFF, 0x7F] is the largest sample, 32767/32768, and
    [0x00, 0x80] the smallest, -1; a third byte makes the payload fail. *)
Example decode_extreme_samples :
  Decoder.decodeAudioData [xff; x7f; x00; x80] (Some running)
  = inr (mkAudioBuffer 24000 1 [32767 # 32768; -32768 # 32768]%Q)
  ∧ Decoder.decodeAudioData [xff; x7f; x00] (Some running)
    = inl Decoder.DecodeError.
Proof. split; reflexivity. Qed.

(** ** Speech request *)

Section Prompt.

Import Gemini.

Lemma trimStart_suffix (s : str) : ∃ k, s = k ++ trimStart s.
Proof.
  induction s as [|c s [k IH]]; [now exists []|]. simpl.
  destruct (isWhiteSpace c); [|now exists []].
  exists (c :: k). simpl. now f_equal.
Qed.

Lemma trimEnd_prefix (s : str) : ∃ k, s = trimEnd s ++ k.
Proof.
  destruct (trimStart_suffix (reverse s)) as [k Hk].
  exists (reverse k). unfold trimEnd. rewrite <- reverse_app, <- Hk.
  now rewrite reverse_involutive.
Qed.

Lemma trimStart_head (s : str) (c : N) :
  head (trimStart s) = Some c → isWhiteSpace c = false.
Proof.
  induction s as [|x s IH]; simpl; [done|].
  destruct (isWhiteSpace x) eqn:E; [done|]. simpl. congruence.
Qed.

Lemma trimEnd_last (s : str) (c : N) :
  last (trimEnd s) = Some c → isWhiteSpace c = false.
Proof. unfold trimEnd. rewrite last_reverse. apply trimStart_head. Qed.

Lemma trimEnd_head (s : str) (c : N) :
  head (trimEnd s) = Some c → head s = Some c.
Proof.
  destruct (trimEnd_prefix s) as [k Hk]. intros H. rewrite Hk.
  now destruct (trimEnd s).
Qed.

Lemma trimStart_filter (s : str) :
  filter (λ c, isWhiteSpace c = false) (trimStart s)
  = filter (λ c, isWhiteSpace c = false) s.
Proof.
  induction s as [|c s IH]; simpl; [done|].
  destruct (isWhiteSpace c) eqn:E; [|done].
  rewrite filter_cons, E. now destruct (decide (true = false)).
Qed.

Lemma trim_filter (s : str) :
  filter (λ c, isWhiteSpace c = false) (trim s)
  = filter (λ c, isWhiteSpace c = false) s.
Proof.
  unfold trim, trimEnd.
  rewrite filter_reverse, trimStart_filter, filter_reverse.
  now rewrite reverse_involutive, trimStart_filter.
Qed.

(** [trim] keeps a contiguous part of the string. *)
Lemma trim_infix (s : str) : ∃ k1 k2, s = k1 ++ trim s ++ k2.
Proof.
  destruct (trimStart_suffix s) as [k1 H1].
  destruct (trimEnd_prefix (trimStart s)) as [k2 H2].
  exists k1, k2. unfold trim. now rewrite <- H2.
Qed.

Lemma trim_Forall (P : N → Prop) (s : str) :
  Forall P s → Forall P (trim s).
Proof.
  destruct (trim_infix s) as (k1 & k2 & E). intros H.
  rewrite E in H. apply Forall_app in H as [_ H].
  now apply Forall_app in H as [H _].
Qed.

Lemma trim_singleSpaced (s : str) :
  singleSpaced s → singleSpaced (trim s).
Proof.
  destruct (trim_infix s) as (k1 & k2 & E). intros H i x y Hx Hy.
  apply (H (length k1 + i)); rewrite E.
  - rewrite lookup_app_r by lia.
    replace (length k1 + i - length k1) with i by lia.
    now apply lookup_app_l_Some.
  - rewrite lookup_app_r by lia.
    replace (S (length k1 + i) - length k1) with (S i) by lia.
    now apply lookup_app_l_Some.
Qed.

Lemma collapseFrom_filter (s : str) :
  ∀ b, filter (λ c, isWhiteSpace c = false) (collapseFrom b s)
       = filter (λ c, isWhiteSpace c = false) s.
Proof.
  induction s as [|c s IH]; intros b; simpl; [done|].
  destruct (isWhiteSpace c) eqn:E.
  - rewrite (filter_cons _ c), E.
    destruct (decide (true = false)); [done|].
    destruct b; [apply IH|]. rewrite filter_cons.
    destruct (decide (isWhiteSpace 32 = false)); [done|apply IH].
  - rewrite !filter_cons, E.
    destruct (decide (false = false)); [|done]. now rewrite IH.
Qed.

Lemma collapseFrom_spaces (s : str) :
  ∀ b, Forall (λ c, isWhiteSpace c = true → c = 32%N) (collapseFrom b s).
Proof.
  induction s as [|c s IH]; intros b; simpl; [constructor|].
  destruct (isWhiteSpace c) eqn:E.
  - destruct b; [apply IH|]. constructor; [done|apply IH].
  - constructor; [congruence|apply IH].
Qed.

Lemma collapseFrom_Forall (P : N → Prop) (s : str) :
  P 32%N → Forall P s → ∀ b, Forall P (collapseFrom b s).
Proof.
  intros H32 Hs. induction Hs as [|c s Hc Hs IH]; intros b; simpl;
    [constructor|].
  destruct (isWhiteSpace c).
  - destruct b; [apply IH|]. constructor; [done|apply IH].
  - constructor; [done|apply IH].
Qed.

Lemma collapseFrom_singleSpaced (s : str) :
  ∀ b, singleSpaced (collapseFrom b s)
       ∧ (b = true → ∀ y, head (collapseFrom b s) = Some y →
                         isWhiteSpace y = false).
Proof.
  induction s as [|c s IH]; intros b; simpl.
  - split; [intros i x y Hx; done|done].
  - destruct (isWhiteSpace c) eqn:E.
    + destruct b; [apply IH|].
      destruct (IH true) as [IH1 IH2].
      split; [|done]. intros [|i] x y Hx Hy Hw.
      * apply IH2; [done|]. now destruct (collapseFrom true s).
      * now apply (IH1 i x y).
    + destruct (IH false) as [IH1 _].
      split.
      * intros [|i] x y Hx Hy Hw.
        -- injection Hx as <-. congruence.
        -- now apply (IH1 i x y).
      * intros _ y Hy. injection Hy as <-. exact E.
Qed.

End Prompt.

(** C10, as stated, fails: a text that cleaning leaves as it is, such as
    [Hi], is contained in the prompt that is sent. *)
Lemma prompt_contains_already_clean_text :
  ¬ (∀ key t v req,
       Gemini.generateSpeechRequest key t v = Some req →
       includes (Gemini.promptText req) t = false).
Proof.
  intros H.
  specialize (H (Some (js "key")) (js "Hi") Kore _ eq_refl).
  vm_compute in H. discriminate H.
Qed.


(** * Further properties *)

(** ** Chunks over a session *)

Section ChunkFrames.

Lemma mapAt_texts (f : AudioChunk → AudioChunk) (k : nat)
    (l : list AudioChunk) :
  (∀ c, text (f c) = text c) → map text (mapAt f k l) = map text l.
Proof.
  intros Hf. unfold mapAt. revert k.
  induction l as [|x l IH]; intros [|k]; try done.
  - change (alter f 0 (x :: l)) with (f x :: l). simpl. now rewrite Hf.
  - change (alter f (S k) (x :: l)) with (x :: alter f k l). simpl.
    now rewrite IH.
Qed.

Lemma mapAt_other (f : AudioChunk → AudioChunk) (k j : nat)
    (l : list AudioChunk) : j ≠ k → mapAt f k l !! j = l !! j.
Proof. intros H. unfold mapAt. now apply list_lookup_alter_ne. Qed.

Lemma mapAt_lookup (f : AudioChunk → AudioChunk) (k j : nat)
    (l : list AudioChunk) (c : AudioChunk) :
  mapAt f k l !! j = Some c →
  l !! j = Some c ∨ ∃ c0, j = k ∧ l !! j = Some c0 ∧ c = f c0.
Proof.
  intros H. destruct (decide (j = k)) as [->|Hne].
  - unfold mapAt in H. rewrite list_lookup_alter_eq in H.
    destruct (l !! k) as [c0|]; [|done]. injection H as <-. right. now exists c0.
  - left. now rewrite mapAt_other in H.
Qed.

Lemma chunksKept_refl (p q : Player) : chunks q = chunks p → chunksKept p q.
Proof. intros E. unfold chunksKept. rewrite E. split; [done|auto]. Qed.

Lemma chunksKept_mapAt (f : AudioChunk → AudioChunk) (k : nat)
    (p q : Player) :
  (∀ c, text (f c) = text c) → (∀ c, status (f c) ≠ pending) →
  chunks q = mapAt f k (chunks p) → chunksKept p q.
Proof.
  intros Ht Hs E. unfold chunksKept. rewrite E. split.
  - now apply mapAt_texts.
  - intros i c Hl Hp. apply mapAt_lookup in Hl as [Hl|(c0 & _ & _ & ->)];
      [done|]. now apply Hs in Hp.
Qed.

Lemma step_chunksKept (p : Player) (e : Event) :
  isTextChanged e = false → chunksKept p (step p e).
Proof.
  intros He. destruct e; simpl; try done; try (now apply chunksKept_refl).
  - unfold loaderEffect. destruct (loaderTarget p) as [t|];
      [|now apply chunksKept_refl].
    destruct (chunks p !! t); [|now apply chunksKept_refl].
    now apply (chunksKept_mapAt (withStatus loading) t).
  - unfold loadSettled, loadFailed.
    destruct (loads p !! k) as [l|]; [|now apply chunksKept_refl].
    destruct (decoding l), o; simpl; try (now apply chunksKept_refl);
      repeat match goal with
             | |- context [if ?b then _ else _] => destruct b
             end;
      try (now apply chunksKept_refl);
      first [ now apply (chunksKept_mapAt (withStatus error) (targetIdx l))
            | now apply (chunksKept_mapAt (withBuffer b) (targetIdx l)) ].
  - unfold playbackEffect, playCurrentChunk.
    destruct (_ && _); [|now apply chunksKept_refl].
    destruct (audioContext p) as [[]|]; try destruct resumeOk;
      try (now apply chunksKept_refl);
      destruct (chunks p !! currentChunkIdx p) as [c|];
      try (now apply chunksKept_refl);
      destruct (buffer c); try (now apply chunksKept_refl);
      destruct (sourceRef p); now apply chunksKept_refl.
  - unfold sourceEnded.
    destruct (audioContext p) as [[]|]; try (now apply chunksKept_refl).
    destruct (started p !! k); [|now apply chunksKept_refl].
    unfold onended. destruct (_ <? _)%Z; now apply chunksKept_refl.
  - destruct (loadingError p); [now apply chunksKept_refl|].
    destruct (bool_decide (chunks p = [])); [now apply chunksKept_refl|].
    unfold handlePause, handleResume.
    destruct (bool_decide (playbackState p = playing));
      destruct (audioContext p) as [[]|]; try destruct ok;
      now apply chunksKept_refl.
  - destruct (loadingError p); now apply chunksKept_refl.
  - unfold cleanupAudio.
    destruct (sourceRef p); simpl; destruct (audioContext p) as [[]|];
      now apply chunksKept_refl.
Qed.

Lemma chunksKept_trans (p q r : Player) :
  chunksKept p q → chunksKept q r → chunksKept p r.
Proof.
  intros [T1 P1] [T2 P2]. split; [congruence|].
  intros i c Hl Hp. apply P1; [|done]. now apply P2.
Qed.

Lemma run_chunksKept (es : list Event) :
  ∀ p, Forall (λ e, isTextChanged e = false) es → chunksKept p (run es p).
Proof.
  induction es as [|e es IH]; intros p Hes; [now apply chunksKept_refl|].
  inversion Hes; subst. eapply chunksKept_trans; [|now apply IH].
  now apply step_chunksKept.
Qed.

End ChunkFrames.

(** X1. As long as no new text arrives, whatever the player does, the
    chunks keep their number, order and texts. *)
Theorem chunk_texts_fixed_within_session (es : list Event) (p : Player) :
  Forall (λ e, isTextChanged e = false) es →
  map text (chunks (run es p)) = map text (chunks p).
Proof. intros Hes. now apply run_chunksKept. Qed.

(** X1 after mounting with two sentences, through both loads and the end of
    the first chunk. *)
Lemma chunk_texts_fixed_witness :
  map text
    (chunks (run (tail chunkZeroPlaying ++ afterChunkZero)
               (run [TextChanged twoSentences] (initialPlayer Kore))))
  = map text (chunks (run [TextChanged twoSentences] (initialPlayer Kore))).
Proof.
  apply (chunk_texts_fixed_within_session
           (tail chunkZeroPlaying ++ afterChunkZero)
           (run [TextChanged twoSentences] (initialPlayer Kore))).
  repeat constructor.
Defined.

(** X2. No operation other than a new text sets a chunk to [pending]: a
    chunk that is [pending] after any sequence of such operations is
    unchanged since before them. A chunk that has left [pending] (also
    one in [error]) is therefore never picked by the loader again. *)
Theorem pending_only_from_new_text (es : list Event) (p : Player)
    (i : nat) (c : AudioChunk) :
  Forall (λ e, isTextChanged e = false) es →
  chunks (run es p) !! i = Some c → status c = pending →
  chunks p !! i = Some c.
Proof. intros Hes. now apply run_chunksKept. Qed.

(** X2 for the second chunk after the first loader run. *)
Lemma pending_only_from_new_text_witness :
  chunks (run [TextChanged twoSentences] (initialPlayer Kore)) !! 1
  = Some (newChunk (repeat 98%N 149 ++ [46%N])).
Proof.
  apply (pending_only_from_new_text [LoaderEffect]
           (run [TextChanged twoSentences] (initialPlayer Kore)) 1
           (newChunk (repeat 98%N 149 ++ [46%N]))).
  - repeat constructor.
  - vm_compute. reflexivity.
  - reflexivity.
Defined.

(** ** Buffers and statuses *)

Section Buffers.

(** Every chunk the segmenter makes is [newChunk] of some buffer. *)
Lemma accumulate_newChunks (P : AudioChunk → Prop) (ss : list str) :
  (∀ s, P (newChunk s)) →
  ∀ acc cur, Forall P acc → Forall P (accumulate ss acc cur).1.
Proof.
  intros HP. induction ss as [|s ss IH]; intros acc cur Hacc; simpl; [done|].
  destruct (length (cur ++ s) <? CHUNK_SIZE_LIMIT); apply IH; [done|].
  apply Forall_app. split; [done|]. now repeat constructor.
Qed.

Lemma splitChunks_newChunks (P : AudioChunk → Prop) (t : str) :
  (∀ s, P (newChunk s)) → Forall P (splitChunks t).
Proof.
  intros HP. unfold splitChunks.
  pose proof (accumulate_newChunks P (sentences t) HP [] [] (Forall_nil_2 _))
    as H.
  destruct (accumulate (sentences t) [] []) as [acc cur]. simpl in H.
  destruct (truthy (trim cur)); [|done].
  apply Forall_app. split; [done|]. now repeat constructor.
Qed.






End Buffers.



(** ** Controller operations *)



(** X5. Pausing a playing session and resuming it, both successful, gives
    back exactly the state before the pause: the same chunk, the same
    source, nothing reloaded. *)
Theorem pause_then_resume_restores (p : Player) :
  playbackState p = playing → audioContext p = Some running →
  loadingError p = false → chunks p ≠ [] →
  step (step p (ClickPlayPause true)) (ClickPlayPause true) = p.
Proof.
  intros Hplay Hctx Herr Hne.
  destruct p as [cs i r s le v ctx src st nid ls un].
  simpl in *. subst. simpl.
  rewrite bool_decide_eq_false_2 by done. simpl.
  now rewrite bool_decide_eq_false_2 by done.
Qed.

(** X5 while chunk 0 of two plays. *)
Lemma pause_then_resume_witness :
  step (step (run chunkZeroPlaying (initialPlayer Kore)) (ClickPlayPause true))
    (ClickPlayPause true)
  = run chunkZeroPlaying (initialPlayer Kore).
Proof.
  apply (pause_then_resume_restores (run chunkZeroPlaying (initialPlayer Kore)));
    vm_compute; (reflexivity || discriminate).
Defined.

(** X6. [cleanupAudio] releases the source and leaves no open context; it
    keeps the chunks, the index, the playback state and the pending loads
    (which go on and settle later); doing it twice is doing it once. *)
Theorem cleanup_releases_audio (p : Player) :
  sourceRef (cleanupAudio p) = None
  ∧ contextOpen (cleanupAudio p) = false
  ∧ chunks (cleanupAudio p) = chunks p
  ∧ currentChunkIdx (cleanupAudio p) = currentChunkIdx p
  ∧ playbackState (cleanupAudio p) = playbackState p
  ∧ isReadyToPlay (cleanupAudio p) = isReadyToPlay p
  ∧ loads (cleanupAudio p) = loads p
  ∧ cleanupAudio (cleanupAudio p) = cleanupAudio p.
Proof.
  unfold cleanupAudio, contextOpen.
  destruct (sourceRef p) eqn:Hs; simpl;
    destruct (audioContext p) as [[]|] eqn:Hc; simpl;
    rewrite ?Hs, ?Hc; repeat split.
Qed.

(** X7. The result of a load, whatever it is, changes no chunk other than
    the load's target, and touches neither the number of chunks, nor the
    index, the playback state, the audio context or the source: a failed
    chunk never disturbs the others. *)
Theorem load_result_touches_only_target (k : nat) (o : LoadOutcome)
    (p : Player) :
  length (chunks (loadSettled k o p)) = length (chunks p)
  ∧ currentChunkIdx (loadSettled k o p) = currentChunkIdx p
  ∧ playbackState (loadSettled k o p) = playbackState p
  ∧ audioContext (loadSettled k o p) = audioContext p
  ∧ sourceRef (loadSettled k o p) = sourceRef p
  ∧ started (loadSettled k o p) = started p
  ∧ ∀ j, (∀ l, loads p !! k = Some l → j ≠ targetIdx l) →
         chunks (loadSettled k o p) !! j = chunks p !! j.
Proof.
  unfold loadSettled, loadFailed.
  destruct (loads p !! k) as [l|]; [|by repeat split].
  destruct (decoding l), o; simpl;
    repeat match goal with
           | |- context [if ?b then _ else _] => destruct b
           end;
    simpl; rewrite ?mapAt_length; repeat split; try done;
    intros j Hj; apply mapAt_other; now apply Hj.
Qed.

(** X8. The playback effect starts a source only when the player is
    playing, [isReadyToPlay] is up, the context is not suspended, the
    current chunk has a buffer and no source is referenced; the new source
    then plays that buffer. In every other case the started sources are
    unchanged. *)
Theorem playback_effect_starts_only_when_ready (ok : bool) (p : Player) :
  started (playbackEffect ok p) = started p
  ∨ (playbackState p = playing ∧ isReadyToPlay p = true
     ∧ sourceRef p = None
     ∧ (audioContext p = Some running ∨ audioContext p = Some closed)
     ∧ ∃ c b, chunks p !! currentChunkIdx p = Some c ∧ buffer c = Some b
              ∧ started (playbackEffect ok p)
                = started p
                  ++ [mkSource (nextNodeId p) b (currentChunkIdx p) (chunks p)]
              ∧ sourceRef (playbackEffect ok p)
                = Some (mkSource (nextNodeId p) b (currentChunkIdx p)
                          (chunks p))).
Proof.
  unfold playbackEffect, playCurrentChunk.
  destruct (bool_decide (playbackState p = playing)) eqn:Hplay; [|now left].
  apply bool_decide_eq_true in Hplay.
  destruct (isReadyToPlay p); simpl; [|now left].
  destruct (audioContext p) as [[]|]; try (now left);
    try (destruct ok; now left);
    destruct (chunks p !! currentChunkIdx p) as [c|]; try (now left);
    destruct (buffer c) as [b|] eqn:Hb; try (now left);
    destruct (sourceRef p); try (now left);
    right; repeat split; eauto; exists c, b; repeat split; done.
Qed.

(** ** More on the segmenter *)

Section SegmenterEdges.

Lemma trim_trimmed (s : str) : trimmed (trim s).
Proof.
  split; intros c Hc; unfold trim in Hc.
  - apply trimEnd_head in Hc. now apply trimStart_head in Hc.
  - now apply trimEnd_last in Hc.
Qed.

Lemma accumulate_head (ss : list str) :
  ∀ acc cur c, head acc = Some c → head (accumulate ss acc cur).1 = Some c.
Proof.
  induction ss as [|s ss IH]; intros acc cur c Hc; simpl; [done|].
  destruct (length (cur ++ s) <? CHUNK_SIZE_LIMIT); apply IH; [done|].
  now destruct acc.
Qed.

Lemma sentences_plain (t : str) :
  Forall (λ c, isTerminator c = false) t → sentences t = [t].
Proof.
  intros Ht. unfold sentences, regexMatch. now rewrite matchAll_plain.
Qed.

Lemma matchAll_units (fuel : nat) :
  ∀ s, Forall (λ u, endsInTerminator u
                    ∧ ∃ c, head u = Some c ∧ isTerminator c = false)
              (matchAll fuel s)
       ∧ concat (matchAll fuel s) `sublist_of` s.
Proof.
  induction fuel as [|fuel IH]; intros s; [split; [constructor|]|].
  { apply sublist_nil_l. }
  destruct s as [|c s]; [split; [constructor|apply sublist_nil_l]|].
  simpl matchAll. destruct (matchAt (c :: s)) as [[m r]|] eqn:E.
  - apply matchAt_Some in E
      as (body & terms & -> & Es & Hb & Hbody & Ht & Hterms & _).
    destruct (IH r) as [IH1 IH2]. split.
    + constructor; [|done]. split.
      * destruct terms as [|x terms] using rev_ind; [done|].
        exists x. rewrite app_assoc, last_snoc. split; [done|].
        apply Forall_app in Hterms as [_ Hx].
        now apply Forall_cons in Hx as [Hx _].
      * destruct body as [|b body]; [done|]. exists b. split; [done|].
        apply Forall_cons in Hbody as [Hx _]. now destruct (isTerminator b).
    + rewrite Es. simpl concat. rewrite <- app_assoc.
      apply sublist_app; [done|]. now apply sublist_app.
  - destruct (IH s) as [IH1 IH2]. split; [done|]. now apply sublist_cons.
Qed.

End SegmenterEdges.

(** X9. Every chunk the segmenter produces is [pending], has no buffer,
    and its text neither begins nor ends with whitespace. *)
Theorem new_chunks_pending_and_trimmed (t : str) :
  Forall (λ c, status c = pending ∧ buffer c = None ∧ trimmed (text c))
         (splitChunks t).
Proof.
  apply splitChunks_newChunks. intros s. repeat split; apply trim_trimmed.
Qed.

(** X10. When the first unit of a text has 200 code units or more, it does
    not fit the empty buffer either, and the buffer is closed as it is: the
    first chunk has the empty text. *)
Theorem long_first_unit_gives_empty_chunk (t u : str) (rest : list str) :
  sentences t = u :: rest → CHUNK_SIZE_LIMIT ≤ length u →
  chunkTexts t !! 0 = Some [].
Proof.
  intros Hs Hu. unfold chunkTexts, splitChunks. rewrite Hs. simpl accumulate.
  destruct (Nat.ltb_spec (length u) CHUNK_SIZE_LIMIT) as [|_]; [lia|].
  pose proof (accumulate_head rest [newChunk []] u (newChunk []) eq_refl) as H.
  destruct (accumulate rest [newChunk []] u) as [acc cur]. simpl in H.
  destruct acc as [|c acc]; [done|]. injection H as ->.
  now destruct (truthy (trim cur)).
Qed.

(** X10 for a sentence of 250 letters followed by a short one. *)
Lemma long_first_unit_witness :
  chunkTexts (repeat 97%N 250 ++ js ". Hi.") !! 0 = Some [].
Proof.
  apply (long_first_unit_gives_empty_chunk
           (repeat 97%N 250 ++ js ". Hi.")
           (repeat 97%N 250 ++ js ".") [js " Hi."]).
  - vm_compute. reflexivity.
  - vm_compute. lia.
Defined.

(** X11. A text without any sentence terminator is one unit: its chunks
    are the trimmed text alone (none when the text is blank), preceded by
    an empty chunk when the text has 200 code units or more. *)
Theorem text_without_terminator_is_one_chunk (t : str) :
  Forall (λ c, isTerminator c = false) t →
  chunkTexts t
  = (if length t <? CHUNK_SIZE_LIMIT then [] else [[]])
    ++ (if truthy (trim t) then [trim t] else []).
Proof.
  intros Ht. unfold chunkTexts, splitChunks.
  rewrite (sentences_plain t Ht). simpl.
  destruct (length t <? CHUNK_SIZE_LIMIT); simpl;
    now destruct (truthy (trim t)).
Qed.

(** X11 for a short line without full stop. *)
Lemma text_without_terminator_witness :
  chunkTexts (js "  read this aloud ") = [js "read this aloud"].
Proof.
  rewrite (text_without_terminator_is_one_chunk (js "  read this aloud "));
    [reflexivity|].
  repeat constructor.
Defined.

(** X12. The units the regex finds are never empty: each starts with a
    character that is no terminator and ends with a terminator. Taken in
    order they are disjoint parts of the text, so together they never hold
    more than the text does. *)
Theorem units_are_parts_of_the_text (t : str) :
  sentences t ≠ []
  ∧ concat (sentences t) `sublist_of` t
  ∧ ∀ ms, regexMatch t = Some ms →
          Forall (λ u, endsInTerminator u
                       ∧ ∃ c, head u = Some c ∧ isTerminator c = false) ms.
Proof.
  destruct (matchAll_units (length t) t) as [H1 H2].
  unfold sentences, regexMatch.
  destruct (matchAll (length t) t) as [|m ms] eqn:E; simpl.
  - split; [done|]. split; [now rewrite app_nil_r|]. intros ms Hms. done.
  - split; [done|]. split; [done|]. intros ms' Hms. now injection Hms as <-.
Qed.

(** ** More on the cleaned text *)

Section CleanText.

Import Gemini.

Lemma filter_all {A} (P : A → Prop) `{!∀ x, Decision (P x)} (l : list A) :
  Forall P l → filter P l = l.
Proof.
  induction 1 as [|x l Hx Hl IH]; [done|].
  now rewrite filter_cons_True, IH.
Qed.

Lemma filter_none {A} (P : A → Prop) `{!∀ x, Decision (P x)} (l : list A) :
  filter P l = [] ↔ Forall (λ x, ¬ P x) l.
Proof.
  induction l as [|x l IH]; [split; [constructor|done]|].
  rewrite filter_cons. destruct (decide (P x)).
  - split; [done|]. intros Hall. now apply Forall_cons in Hall as [Hall _].
  - rewrite IH. split; [now constructor|].
    intros Hall. now apply Forall_cons in Hall as [_ Hall].
Qed.

Lemma trimStart_id (s : str) :
  (∀ c, head s = Some c → isWhiteSpace c = false) → trimStart s = s.
Proof.
  destruct s as [|c s]; [done|]. intros H. simpl. now rewrite (H c eq_refl).
Qed.

Lemma trim_id (s : str) : trimmed s → trim s = s.
Proof.
  intros [Hh Hl]. unfold trim, trimEnd. rewrite (trimStart_id s Hh).
  rewrite trimStart_id; [apply reverse_involutive|].
  intros c. rewrite head_reverse. apply Hl.
Qed.

Lemma singleSpaced_tail (c : N) (s : str) :
  singleSpaced (c :: s) → singleSpaced s.
Proof. intros H i x y Hx Hy. now apply (H (S i) x y). Qed.

Lemma collapseFrom_id (s : str) :
  ∀ b, singleSpaced s →
       Forall (λ c, isWhiteSpace c = true → c = 32%N) s →
       (b = true → ∀ c, head s = Some c → isWhiteSpace c = false) →
       collapseFrom b s = s.
Proof.
  induction s as [|c s IH]; intros b Hs Hw Hb; simpl; [done|].
  apply Forall_cons in Hw as [Hc Hw].
  destruct (isWhiteSpace c) eqn:E.
  - destruct b; [specialize (Hb eq_refl c eq_refl); congruence|].
    rewrite (Hc eq_refl). f_equal.
    apply IH; [now apply singleSpaced_tail in Hs|done|].
    intros _ y Hy. destruct s as [|x s]; [done|]. injection Hy as ->.
    now apply (Hs 0 c y).
  - f_equal. apply IH; [now apply singleSpaced_tail in Hs|done|done].
Qed.

Lemma collapseFrom_length (s : str) :
  ∀ b, length (collapseFrom b s) ≤ length s.
Proof.
  induction s as [|c s IH]; intros b; simpl; [lia|].
  destruct (isWhiteSpace c); [destruct b|]; simpl.
  - specialize (IH true). lia.
  - specialize (IH true). lia.
  - specialize (IH false). lia.
Qed.

Lemma cleanText_shape (t : str) :
  Forall (λ c, isMarkdownChar c = false) (cleanText t)
  ∧ Forall (λ c, isWhiteSpace c = true → c = 32%N) (cleanText t)
  ∧ singleSpaced (cleanText t)
  ∧ trimmed (cleanText t).
Proof.
  unfold cleanText, normalizeWhitespace, removeMarkdown.
  split; [|split; [|split]].
  - apply trim_Forall, collapseFrom_Forall; [done|].
    apply Forall_forall. intros c Hc.
    now apply list_elem_of_filter in Hc as [Hc _].
  - apply trim_Forall, collapseFrom_spaces.
  - apply trim_singleSpaced, collapseFrom_singleSpaced.
  - apply trim_trimmed.
Qed.

Lemma cleanText_content (t : str) :
  filter (λ c, isWhiteSpace c = false) (cleanText t)
  = filter (λ c, isWhiteSpace c = false ∧ isMarkdownChar c = false) t.
Proof.
  unfold cleanText, normalizeWhitespace, removeMarkdown.
  rewrite trim_filter, collapseFrom_filter. apply list_filter_filter.
Qed.

End CleanText.

(** X13. Cleaning is idempotent: a text that has been cleaned is left as
    it is by cleaning it again. *)
Theorem cleanText_idempotent (t : str) :
  Gemini.cleanText (Gemini.cleanText t) = Gemini.cleanText t.
Proof.
  destruct (cleanText_shape t) as (Hmd & Hws & Hsp & Htr).
  unfold Gemini.cleanText at 1.
  unfold Gemini.removeMarkdown. rewrite (filter_all _ _ Hmd).
  unfold Gemini.normalizeWhitespace.
  rewrite collapseFrom_id; [now apply trim_id|done|done|done].
Qed.

(** X14. The cleaned text is empty exactly when the text holds nothing but
    whitespace and the characters [# * ` _ ~]; the prompt then ends right
    after [Text: ]. The cleaned text is never longer than the text. *)
Theorem cleanText_empty_iff_blank (t : str) :
  (Gemini.cleanText t = []
   ↔ Forall (λ c, isWhiteSpace c = true ∨ Gemini.isMarkdownChar c = true) t)
  ∧ (Gemini.cleanText t = [] →
     Gemini.fullPrompt t = Gemini.TTS_PREAMBLE ++ [10%N; 10%N] ++ js "Text: ")
  ∧ length (Gemini.cleanText t) ≤ length t.
Proof.
  pose proof (cleanText_content t) as Hc.
  destruct (cleanText_shape t) as (_ & _ & _ & [Hh _]).
  split; [split|split].
  - intros E. rewrite E in Hc. symmetry in Hc. apply filter_none in Hc.
    eapply Forall_impl; [exact Hc|]. intros c Hn. simpl in Hn.
    destruct (isWhiteSpace c); [now left|].
    destruct (Gemini.isMarkdownChar c); [now right|]. now destruct Hn.
  - intros Ht.
    assert (E : filter (λ c, isWhiteSpace c = false
                             ∧ Gemini.isMarkdownChar c = false) t = []).
    { apply filter_none. eapply Forall_impl; [exact Ht|].
      intros c [H|H] [H1 H2]; congruence. }
    rewrite E in Hc. destruct (Gemini.cleanText t) as [|c s]; [done|].
    exfalso. rewrite filter_cons_True in Hc by now apply Hh. done.
  - intros E. unfold Gemini.fullPrompt. now rewrite E, !app_nil_r.
  - unfold Gemini.cleanText, Gemini.normalizeWhitespace, Gemini.removeMarkdown.
    etransitivity; [apply trim_length|].
    etransitivity; [apply collapseFrom_length|]. apply length_filter.
Qed.

(** ** Notes *)

Section NoteFacts.

Import App.

Lemma firstLine_prefix (s : str) : firstLine s `prefix_of` s.
Proof.
  induction s as [|c s IH]; simpl; [done|].
  destruct (c =? 10)%N; [apply prefix_nil|]. now apply prefix_cons.
Qed.

Lemma firstLine_no_newline (s : str) : Forall (λ c, c ≠ 10%N) (firstLine s).
Proof.
  induction s as [|c s IH]; simpl; [constructor|].
  destruct (N.eqb_spec c 10); [constructor|]. now constructor.
Qed.

Lemma findNote_Some (i : str) (l : list Note) (n : Note) :
  findNote i l = Some n → id n = i ∧ n ∈ l.
Proof.
  induction l as [|m l IH]; simpl; [done|].
  destruct (bool_decide (id m = i)) eqn:E.
  - intros [= ->]. apply bool_decide_eq_true in E. split; [done|left].
  - intros H. destruct (IH H). split; [done|now right].
Qed.

Lemma findNote_elem (i : str) (l : list Note) (n : Note) :
  n ∈ l → id n = i → is_Some (findNote i l).
Proof.
  induction 1 as [n l|n m l Hn IH]; intros Hi; simpl.
  - rewrite bool_decide_eq_true_2 by done. eauto.
  - destruct (bool_decide (id m = i)); [eauto|now apply IH].
Qed.

Lemma findNote_filter (i j : str) (l : list Note) :
  j ≠ i → findNote j (filter (λ n, id n ≠ i) l) = findNote j l.
Proof.
  intros Hne. induction l as [|m l IH]; [done|].
  rewrite filter_cons. simpl. destruct (decide (id m ≠ i)) as [Hm|Hm]; simpl.
  - now rewrite IH.
  - rewrite IH. apply dec_stable in Hm.
    rewrite bool_decide_eq_false_2; [done|congruence].
Qed.

Lemma findNote_update (cur content : str) (now : N) (l : list Note) :
  findNote cur (updateNotes cur content now l)
  = (λ n, mkNote (id n) (deriveTitle content) content now) <$> findNote cur l.
Proof.
  induction l as [|m l IH]; [done|]. simpl.
  destruct (bool_decide (id m = cur)) eqn:E; simpl; rewrite E; [done|].
  exact IH.
Qed.

Lemma findNote_update_is_Some (i cur content : str) (now : N)
    (l : list Note) :
  is_Some (findNote i l) → is_Some (findNote i (updateNotes cur content now l)).
Proof.
  induction l as [|m l IH]; [done|]. simpl.
  destruct (bool_decide (id m = cur)); simpl;
    destruct (bool_decide (id m = i)); eauto.
Qed.

Lemma updateNotes_ids (cur content : str) (now : N) (l : list Note) :
  map id (updateNotes cur content now l) = map id l.
Proof.
  induction l as [|m l IH]; [done|]. simpl. rewrite IH.
  now destruct (bool_decide (id m = cur)).
Qed.

Lemma updateNotes_twice (cur c1 c2 : str) (t1 t2 : N) (l : list Note) :
  updateNotes cur c2 t2 (updateNotes cur c1 t1 l) = updateNotes cur c2 t2 l.
Proof.
  induction l as [|m l IH]; [done|]. simpl. rewrite IH. f_equal.
  destruct (bool_decide (id m = cur)) eqn:E; simpl; now rewrite E.
Qed.

Lemma noteStep_currentExists (s : NoteState) (e : NoteEvent) :
  currentExists s → currentExists (noteStep s e).
Proof.
  intros Hs. destruct e as [uuid now|k|k|content now|cap ri rs now]; simpl.
  - intros i [= <-]. unfold getCurrentNote. simpl.
    rewrite bool_decide_eq_true_2 by done. eauto.
  - destruct (notes s !! k) as [n|] eqn:Hk; [|done].
    intros i [= <-]. unfold getCurrentNote. simpl.
    apply (findNote_elem _ _ n); [|done]. now apply list_elem_of_lookup_2 in Hk.
  - destruct (notes s !! k) as [n|] eqn:Hk; [|done].
    intros i. unfold handleDeleteNote, getCurrentNote. simpl.
    destruct (bool_decide (currentNoteId s = Some (id n))) eqn:E; [done|].
    apply bool_decide_eq_false in E. intros Hi. rewrite Hi.
    rewrite findNote_filter by congruence.
    specialize (Hs i Hi). unfold getCurrentNote in Hs. now rewrite Hi in Hs.
  - unfold handleUpdateNote. destruct (currentNoteId s) as [cur|] eqn:Hc; [|done].
    destruct (truthy cur); [|exact Hs].
    intros i [= <-]. unfold getCurrentNote. simpl. rewrite findNote_update.
    specialize (Hs cur Hc). unfold getCurrentNote in Hs. rewrite Hc in Hs.
    destruct Hs as [n ->]. simpl. eauto.
  - unfold onresult. destruct (currentNoteId cap) as [cur|]; [|done].
    destruct (_ && _); [|done].
    destruct (getCurrentNote cap) as [note|]; [|done].
    intros i Hi. simpl in Hi. specialize (Hs i Hi).
    unfold getCurrentNote in *. simpl. rewrite Hi in *.
    now apply findNote_update_is_Some.
Qed.

Lemma noteRun_currentExists (es : list NoteEvent) :
  ∀ s, currentExists s → currentExists (foldl noteStep s es).
Proof.
  induction es as [|e es IH]; intros s Hs; [done|].
  simpl. apply IH. now apply noteStep_currentExists.
Qed.

End NoteFacts.

(** X15. The title derived from a note's content is never empty, has at
    most 30 code units and no line feed; it is a prefix of the content
    unless the first line is empty, when it is [Untitled]. *)
Theorem derived_title_is_short_first_line (content : str) :
  App.deriveTitle content ≠ []
  ∧ length (App.deriveTitle content) ≤ 30
  ∧ Forall (λ c, c ≠ 10%N) (App.deriveTitle content)
  ∧ (App.deriveTitle content `prefix_of` content
     ∨ App.deriveTitle content = js "Untitled"
       ∧ take 1 content `prefix_of` [10%N]).
Proof.
  unfold App.deriveTitle.
  assert (Hlen : length (take 30 (App.firstLine content)) ≤ 30)
    by (rewrite length_take; lia).
  assert (Hnl : Forall (λ c, c ≠ 10%N) (take 30 (App.firstLine content)))
    by apply Forall_take, firstLine_no_newline.
  assert (Hpre : take 30 (App.firstLine content) `prefix_of` content)
    by (etransitivity; [apply prefix_take|apply firstLine_prefix]).
  destruct (take 30 (App.firstLine content)) as [|c t] eqn:E; simpl.
  - split; [done|]. split; [vm_compute; lia|].
    split; [now repeat constructor|]. right. split; [done|].
    destruct content as [|x content]; [apply prefix_nil|]. simpl in *.
    destruct (N.eqb_spec x 10); [now subst|done].
  - split; [done|]. split; [done|]. split; [done|now left].
Qed.

(** X16. Editing the current note and reading it back gives the note with
    its id kept and with the new content, the derived title and the new
    time; the ids of all notes, their order and the selection stay. *)
Theorem update_then_get_current (content : str) (now : N) (s : App.NoteState)
    (cur : str) (n : App.Note) :
  App.currentNoteId s = Some cur → truthy cur = true →
  App.getCurrentNote s = Some n →
  App.getCurrentNote (App.handleUpdateNote content now s)
  = Some (App.mkNote cur (App.deriveTitle content) content now)
  ∧ map App.id (App.notes (App.handleUpdateNote content now s))
    = map App.id (App.notes s)
  ∧ App.currentNoteId (App.handleUpdateNote content now s) = Some cur.
Proof.
  intros Hc Ht Hn. unfold App.handleUpdateNote, App.getCurrentNote in *.
  rewrite Hc in *. rewrite Ht. simpl.
  rewrite findNote_update, updateNotes_ids, Hn. simpl.
  apply findNote_Some in Hn as [-> _]. done.
Qed.

(** X16 for a new note that receives its first line. *)
Lemma update_then_get_current_witness :
  App.getCurrentNote
    (App.handleUpdateNote (js "Lesson 1") 2
       (App.handleNewNote (js "a1") 1 (App.mkNoteState [] None)))
  = Some (App.mkNote (js "a1") (js "Lesson 1") (js "Lesson 1") 2).
Proof.
  apply (update_then_get_current (js "Lesson 1") 2
           (App.handleNewNote (js "a1") 1 (App.mkNoteState [] None))
           (js "a1") (App.mkNote (js "a1") (js "Untitled Note") [] 1));
    reflexivity.
Defined.

(** X17. Whatever notes were saved and whatever happens (new note,
    selecting or deleting a row of the sidebar, editing, dictation
    results), a selected id always names a stored note: [getCurrentNote]
    finds a note, and it has that id. *)
Theorem current_note_always_exists (s : App.NoteState) (i : str) :
  App.noteReachable s → App.currentNoteId s = Some i →
  ∃ n, App.getCurrentNote s = Some n ∧ App.id n = i ∧ n ∈ App.notes s.
Proof.
  intros (saved & es & ->) Hi.
  assert (H : currentExists (foldl App.noteStep (App.mkNoteState saved None) es))
    by now apply noteRun_currentExists.
  destruct (H i Hi) as [n Hn]. exists n. split; [done|].
  unfold App.getCurrentNote in Hn. rewrite Hi in Hn.
  now apply findNote_Some in Hn.
Qed.

(** X17 after creating two notes and deleting the newer one's neighbour. *)
Lemma current_note_always_exists_witness :
  ∃ n, App.getCurrentNote
         (foldl App.noteStep (App.mkNoteState [] None)
            [App.NewNote (js "a1") 1; App.NewNote (js "b2") 2;
             App.DeleteRow 1]) = Some n
       ∧ App.id n = js "b2"
       ∧ n ∈ App.notes
               (foldl App.noteStep (App.mkNoteState [] None)
                  [App.NewNote (js "a1") 1; App.NewNote (js "b2") 2;
                   App.DeleteRow 1]).
Proof.
  apply (current_note_always_exists
           (foldl App.noteStep (App.mkNoteState [] None)
              [App.NewNote (js "a1") 1; App.NewNote (js "b2") 2;
               App.DeleteRow 1]) (js "b2")).
  - now exists [], [App.NewNote (js "a1") 1; App.NewNote (js "b2") 2;
                    App.DeleteRow 1].
  - reflexivity.
Defined.

(** X18. Deleting a note removes every note with that id and keeps the
    others in order. If it was the current note, no note is current
    afterwards; otherwise the current note is the same as before. *)
Theorem delete_keeps_other_current (i : str) (s : App.NoteState) :
  Forall (λ n, App.id n ≠ i) (App.notes (App.handleDeleteNote i s))
  ∧ App.notes (App.handleDeleteNote i s) `sublist_of` App.notes s
  ∧ (∀ n, n ∈ App.notes s → App.id n ≠ i →
          n ∈ App.notes (App.handleDeleteNote i s))
  ∧ if bool_decide (App.currentNoteId s = Some i)
    then App.getCurrentNote (App.handleDeleteNote i s) = None
    else App.getCurrentNote (App.handleDeleteNote i s) = App.getCurrentNote s.
Proof.
  unfold App.handleDeleteNote, App.getCurrentNote. simpl.
  split; [|split; [|split]].
  - apply Forall_forall. intros n Hn.
    now apply list_elem_of_filter in Hn as [Hn _].
  - apply sublist_filter.
  - intros n Hn Hi. now apply list_elem_of_filter.
  - destruct (bool_decide (App.currentNoteId s = Some i)) eqn:E; [done|].
    apply bool_decide_eq_false in E.
    destruct (App.currentNoteId s) as [j|]; [|done].
    apply findNote_filter. congruence.
Qed.

(** ** Dictation, speak, export and chat *)

Section ShellFacts.

Import App.

Lemma replaceRuns_no_whitespace (r : N) (s : str) :
  isWhiteSpace r = false →
  ∀ b, Forall (λ c, isWhiteSpace c = false) (replaceRuns r b s).
Proof.
  intros Hr. induction s as [|c s IH]; intros b; simpl; [constructor|].
  destruct (isWhiteSpace c) eqn:E.
  - destruct b; [apply IH|]. constructor; [done|apply IH].
  - constructor; [done|apply IH].
Qed.

Lemma replaceRuns_length (r : N) (s : str) :
  ∀ b, length (replaceRuns r b s) ≤ length s.
Proof.
  induction s as [|c s IH]; intros b; simpl; [lia|].
  destruct (isWhiteSpace c); [destruct b|]; simpl.
  - specialize (IH true). lia.
  - specialize (IH true). lia.
  - specialize (IH false). lia.
Qed.

Lemma replaceRuns_content (r : N) (s : str) :
  ∀ b, filter (λ c, isWhiteSpace c = false ∧ c ≠ r) (replaceRuns r b s)
       = filter (λ c, isWhiteSpace c = false ∧ c ≠ r) s.
Proof.
  induction s as [|c s IH]; intros b; [done|]. simpl.
  destruct (isWhiteSpace c) eqn:E.
  - rewrite (filter_cons_False _ c s) by (intros [H _]; congruence).
    destruct b; [apply IH|].
    rewrite filter_cons_False by (intros [_ H]; done). apply IH.
  - rewrite !(filter_cons _ c), IH. done.
Qed.

Lemma countRole_snoc (r : Role) (l : list ChatMessage) (m : ChatMessage) :
  countRole r (l ++ [m])
  = countRole r l + (if bool_decide (role m = r) then 1 else 0).
Proof.
  unfold countRole. rewrite filter_app, length_app, filter_cons, filter_nil.
  destruct (decide (role m = r)).
  - now rewrite bool_decide_eq_true_2.
  - now rewrite bool_decide_eq_false_2.
Qed.

Lemma chatStep_balanced (c : ChatState) (e : ChatEvent) :
  chatBalanced c → chatBalanced (chatStep c e).
Proof.
  unfold chatBalanced. intros Hc. destruct e as [uuid now t img s|k reply uuid now].
  - simpl. rewrite !countRole_snoc, length_app. simpl. lia.
  - simpl. unfold replyArrived.
    destruct (inFlight c !! k) eqn:Hk; [|done]. simpl.
    rewrite !countRole_snoc. simpl.
    apply lookup_lt_Some in Hk. rewrite length_delete by eauto using lookup_lt_is_Some_2.
    lia.
Qed.

Lemma chatRun_balanced (es : list ChatEvent) :
  ∀ c, chatBalanced c → chatBalanced (foldl chatStep c es).
Proof.
  induction es as [|e es IH]; intros c Hc; [done|].
  simpl. apply IH. now apply chatStep_balanced.
Qed.

End ShellFacts.

(** X19. A dictation result is appended to the content the current note
    had when recording was started, not to its content now: within one
    recording, a later result that holds a final transcript undoes what an
    earlier result wrote. *)
Theorem later_dictation_discards_earlier (captured s : App.NoteState)
    (i1 i2 : nat) (r1 r2 : list App.SpeechResult) (t1 t2 : N) :
  truthy (App.finalTranscript i2 r2) = true →
  App.onresult captured i2 r2 t2 (App.onresult captured i1 r1 t1 s)
  = App.onresult captured i2 r2 t2 s.
Proof.
  intros H2. unfold App.onresult. rewrite H2.
  destruct (App.currentNoteId captured) as [cur|]; [|done].
  destruct (truthy cur); [|now rewrite !andb_false_r].
  rewrite !andb_true_r. simpl.
  destruct (App.getCurrentNote captured) as [note|];
    [|now destruct (truthy (App.finalTranscript i1 r1))].
  destruct (truthy (App.finalTranscript i1 r1)); [|done].
  simpl. now rewrite updateNotes_twice.
Qed.

(** X19 for two phrases dictated into an empty note: only the second one
    is in the note. *)
Lemma later_dictation_witness :
  App.onresult (App.handleNewNote (js "a1") 1 (App.mkNoteState [] None)) 1
    [App.mkResult true (js "one"); App.mkResult true (js "two")] 3
    (App.onresult (App.handleNewNote (js "a1") 1 (App.mkNoteState [] None)) 0
       [App.mkResult true (js "one")] 2
       (App.handleNewNote (js "a1") 1 (App.mkNoteState [] None)))
  = App.mkNoteState [App.mkNote (js "a1") (js "two ") (js "two ") 3]
      (Some (js "a1")).
Proof.
  rewrite (later_dictation_discards_earlier
             (App.handleNewNote (js "a1") 1 (App.mkNoteState [] None))
             (App.handleNewNote (js "a1") 1 (App.mkNoteState [] None))
             0 1 [App.mkResult true (js "one")]
             [App.mkResult true (js "one"); App.mkResult true (js "two")] 2 3);
    reflexivity.
Defined.

(** X20. Speak either leaves the player state as it is, which happens only
    when the current note's content is not empty but blank, or switches the
    player on with a text that is not blank: the content of the current
    note, or the fallback sentence when there is no current note or its
    content is empty. Speed, voice and the loading flag are kept. *)
Theorem speak_reads_nonblank_text (s : App.NoteState) (t : App.TtsState) :
  (App.handleSpeak s t = t
   ∧ ∃ n, App.getCurrentNote s = Some n ∧ App.content n ≠ []
          ∧ trim (App.content n) = [])
  ∨ (App.isPlaying (App.handleSpeak s t) = true
     ∧ trim (App.textToRead (App.handleSpeak s t)) ≠ []
     ∧ App.textToRead (App.handleSpeak s t) = App.speakText s
     ∧ (App.speakText s = App.SPEAK_FALLBACK
        ∨ ∃ n, App.getCurrentNote s = Some n ∧ App.content n ≠ []
               ∧ App.speakText s = App.content n)
     ∧ App.speed (App.handleSpeak s t) = App.speed t
     ∧ App.voice (App.handleSpeak s t) = App.voice t
     ∧ App.isLoading (App.handleSpeak s t) = App.isLoading t).
Proof.
  unfold App.handleSpeak.
  assert (Hs : App.speakText s = App.SPEAK_FALLBACK
               ∨ ∃ n, App.getCurrentNote s = Some n ∧ App.content n ≠ []
                      ∧ App.speakText s = App.content n).
  { unfold App.speakText. destruct (App.getCurrentNote s) as [n|]; [|now left].
    destruct (App.content n) as [|c l] eqn:E; [now left|].
    right. exists n. now rewrite E. }
  destruct (truthy (trim (App.speakText s))) eqn:E.
  - right. simpl. repeat split; try done.
    now destruct (trim (App.speakText s)).
  - left. split; [done|]. destruct Hs as [Hs|(n & Hn & Hc & Hs)].
    + rewrite Hs in E. vm_compute in E. done.
    + exists n. rewrite Hs in E. repeat split; try done.
      now destruct (trim (App.content n)).
Qed.


(** X22. In every state of the chat reached from an empty transcript, the
    user's messages are as many as the model's messages plus the calls in
    flight: every call, answered or failed, adds exactly one message of
    the model. No step removes or changes a message already shown. *)
Theorem chat_replies_match_requests (c : App.ChatState) :
  App.chatReachable c →
  App.countRole App.user (App.chatMessages c)
  = App.countRole App.model (App.chatMessages c) + length (App.inFlight c)
  ∧ ∀ e, App.chatMessages c `prefix_of` App.chatMessages (App.chatStep c e).
Proof.
  intros (es & ->). split.
  - apply chatRun_balanced. reflexivity.
  - intros [uuid now t img s|k reply uuid now]; simpl.
    + now apply prefix_app_r.
    + unfold App.replyArrived.
      destruct (App.inFlight _ !! k); [simpl; now apply prefix_app_r|done].
Qed.

(** X22 after a message that was answered and one whose call failed. *)
Lemma chat_replies_match_requests_witness :
  App.countRole App.user
    (App.chatMessages
       (foldl App.chatStep (App.mkChatState [] false [])
          [App.Send (js "u1") 1 (js "Hi") None (App.mkNoteState [] None);
           App.Reply 0 (Some (js "Hello")) (js "m1") 2;
           App.Send (js "u2") 3 (js "More") None (App.mkNoteState [] None);
           App.Reply 0 None (js "m2") 4])) = 2.
Proof.
  rewrite (proj1 (chat_replies_match_requests
             (foldl App.chatStep (App.mkChatState [] false [])
                [App.Send (js "u1") 1 (js "Hi") None (App.mkNoteState [] None);
                 App.Reply 0 (Some (js "Hello")) (js "m1") 2;
                 App.Send (js "u2") 3 (js "More") None (App.mkNoteState [] None);
                 App.Reply 0 None (js "m2") 4])
             (ex_intro _ _ eq_refl))).
  reflexivity.
Defined.

(** ** Loads across a session *)

Section LoadFacts.

Lemma splitEffect_new_text (t : str) (p : Player) :
  truthy t = true →
  chunks (splitEffect t p) = splitChunks t
  ∧ loads (splitEffect t p) = loads p
  ∧ audioContext (splitEffect t p) = Some running
  ∧ currentChunkIdx (splitEffect t p) = 0
  ∧ playbackState (splitEffect t p) = playing
  ∧ isReadyToPlay (splitEffect t p) = isReadyToPlay p.
Proof.
  intros Ht. unfold splitEffect. rewrite Ht. simpl.
  unfold cleanupAudio.
  destruct (sourceRef p); simpl; destruct (audioContext p) as [[]|];
    repeat split.
Qed.

End LoadFacts.

(** X23. A text change does not cancel the loads in flight. A load that
    was requested for the earlier text and completes afterwards passes the
    context test, since the new context is open, and stores its audio in
    the chunk of the new text at the same index, marking it [ready]; when
    it had been requested for the then current chunk it also raises
    [isReadyToPlay]. *)
Theorem stale_load_fills_chunk_of_new_text (p : Player) (k : nat)
    (l : PendingLoad) (t : str) (b : AudioBuffer) (c : AudioChunk) :
  loads p !! k = Some l → decoding l = false → truthy t = true →
  splitChunks t !! targetIdx l = Some c →
  chunks (loadSettled k (Decoded b) (loadSettled k Fetched (splitEffect t p)))
    !! targetIdx l
  = Some (mkChunk (text c) (Some b) ready)
  ∧ (targetIdx l = seenIdx l →
     isReadyToPlay
       (loadSettled k (Decoded b) (loadSettled k Fetched (splitEffect t p)))
     = true).
Proof.
  intros Hk Hd Ht Hc.
  destruct (splitEffect_new_text t p Ht) as (Hch & Hl & Hctx & _).
  assert (E1 : loadSettled k Fetched (splitEffect t p)
               = setLoads (<[k := startDecoding l]> (loads p))
                   (splitEffect t p)).
  { unfold loadSettled, contextOpen. now rewrite Hl, Hk, Hd, Hctx. }
  rewrite E1. unfold loadSettled at 1. unfold loadSettled at 1. simpl.
  rewrite list_lookup_insert_eq by (now apply lookup_lt_Some in Hk). simpl.
  destruct (bool_decide (targetIdx l = seenIdx l)) eqn:E; simpl;
    rewrite Hch; unfold mapAt; rewrite list_lookup_alter_eq, Hc; simpl;
    (split; [done|]); [done|].
  intros H. now apply bool_decide_eq_false in E.
Qed.

(** X23 for a text that arrives while the two loads of [twoLoadsTrace] are
    in flight. *)
Lemma stale_load_witness :
  chunks (loadSettled 0 (Decoded silence)
            (loadSettled 0 Fetched
               (splitEffect (js "New text.")
                  (run twoLoadsTrace (initialPlayer Kore)))))
    !! 0
  = Some (mkChunk (js "New text.") (Some silence) ready).
Proof.
  apply (stale_load_fills_chunk_of_new_text
           (run twoLoadsTrace (initialPlayer Kore)) 0
           (mkLoad 0 (repeat 97%N 149 ++ [46%N]) Kore 0 false)
           (js "New text.") silence (newChunk (js "New text.")));
    vm_compute; reflexivity.
Defined.

(** X24. Within a session a chunk is requested at most once: after the
    loader has picked a chunk, no sequence of operations without a new text
    makes the loader pick that chunk again, whatever became of the
    request. *)
Theorem chunk_requested_once (p : Player) (t : nat) (es : list Event) :
  loaderTarget p = Some t →
  Forall (λ e, isTextChanged e = false) es →
  loaderTarget (run es (loaderEffect p)) ≠ Some t.
Proof.
  intros Ht Hes Ht'.
  destruct (loaderTarget_pending _ _ Ht) as (c & Hc & Hs & _).
  destruct (loaderTarget_pending _ _ Ht') as (c' & Hc' & Hs' & _).
  destruct (run_chunksKept es (loaderEffect p) Hes) as [_ Hk].
  specialize (Hk t c' Hc' Hs').
  unfold loaderEffect in Hk. rewrite Ht, Hc in Hk. simpl in Hk.
  unfold mapAt in Hk. rewrite list_lookup_alter_eq, Hc in Hk.
  simpl in Hk. injection Hk as <-. done.
Qed.

(** X24 for the first chunk of two after its load failed. *)
Lemma chunk_requested_once_witness :
  loaderTarget
    (run [LoadSettled 0 FetchThrew; ClickRetry; LoaderEffect]
       (loaderEffect (run [TextChanged twoSentences] (initialPlayer Kore))))
  ≠ Some 0.
Proof.
  apply (chunk_requested_once
           (run [TextChanged twoSentences] (initialPlayer Kore)) 0
           [LoadSettled 0 FetchThrew; ClickRetry; LoaderEffect]).
  - vm_compute. reflexivity.
  - repeat constructor.
Defined.

(** ** Words and separators *)

Section Words.

Lemma words_nonempty (d : N) (s : str) :
  isWhiteSpace d = false → words (d :: s) ≠ [].
Proof.
  intros Hd. simpl. rewrite Hd. destruct s as [|e s]; [done|].
  destruct (isWhiteSpace e); [done|]. now destruct (words (e :: s)).
Qed.

Lemma words_shape (s : str) :
  Forall (λ w, w ≠ [] ∧ Forall (λ c, isWhiteSpace c = false) w) (words s).
Proof.
  induction s as [|c s IH]; simpl; [constructor|].
  destruct (isWhiteSpace c) eqn:E; [done|].
  destruct s as [|d s]; [now repeat constructor|].
  destruct (isWhiteSpace d) eqn:Ed.
  - constructor; [|done]. split; [done|now repeat constructor].
  - destruct (words (d :: s)) as [|w ws]; [now repeat constructor|].
    apply Forall_cons in IH as [[Hw1 Hw2] IH].
    constructor; [|done]. split; [done|now constructor].
Qed.

Lemma words_content (s : str) :
  concat (words s) = filter (λ c, isWhiteSpace c = false) s.
Proof.
  induction s as [|c s IH]; [done|]. simpl words.
  destruct (isWhiteSpace c) eqn:E.
  - rewrite filter_cons_False by congruence. exact IH.
  - rewrite filter_cons_True by done. rewrite <- IH.
    destruct s as [|d s]; [done|].
    destruct (isWhiteSpace d) eqn:Ed; [done|].
    destruct (words (d :: s)) as [|w ws] eqn:Ew; [|done].
    now apply words_nonempty in Ew.
Qed.

Lemma joinWith_cons (sep c : N) (w : str) (ws : list str) :
  joinWith sep ((c :: w) :: ws) = c :: joinWith sep (w :: ws).
Proof. simpl. now destruct ws. Qed.

Lemma joinWith_trimmed (sep : N) (ws : list str) :
  Forall (λ w, w ≠ [] ∧ Forall (λ c, isWhiteSpace c = false) w) ws →
  trimmed (joinWith sep ws).
Proof.
  induction 1 as [|w ws [Hne Hw] Hws [IHh IHl]]; [split; done|].
  simpl. destruct ws as [|w' ws].
  - split; intros c Hc.
    + apply head_Some_elem_of in Hc. rewrite Forall_forall in Hw. auto.
    + apply last_Some_elem_of in Hc. rewrite Forall_forall in Hw. auto.
  - split; intros c Hc.
    + destruct w as [|x w]; [done|]. simpl in Hc. injection Hc as <-.
      now apply Forall_cons in Hw as [Hx _].
    + rewrite last_app, last_cons in Hc.
      destruct (last (joinWith sep (w' :: ws))) as [z|] eqn:Ez.
      * injection Hc as <-. now apply IHl.
      * exfalso. apply last_None in Ez.
        apply Forall_cons in Hws as [[Hw' _] _].
        simpl in Ez. destruct ws; [done|]. now destruct w'.
Qed.

End Words.

Section Separators.

Import App.

Lemma words_nil (s : str) :
  words s = [] → Forall (λ c, isWhiteSpace c = true) s.
Proof.
  induction s as [|c s IH]; [constructor|]. intros H.
  destruct (isWhiteSpace c) eqn:E.
  - constructor; [done|]. apply IH. simpl in H. now rewrite E in H.
  - now apply words_nonempty in H.
Qed.

Lemma last_cons_cons {A} (x y : A) (l : list A) :
  last (x :: y :: l) = last (y :: l).
Proof. done. Qed.

Lemma endsWithSpace_cons (c d : N) (s : str) :
  words (d :: s) ≠ [] → words (c :: d :: s) ≠ [] →
  endsWithSpace (c :: d :: s) = endsWithSpace (d :: s).
Proof.
  intros H1 H2. unfold endsWithSpace. rewrite last_cons_cons.
  destruct (words (d :: s)); [done|]. now destruct (words (c :: d :: s)).
Qed.

Lemma endsWithSpace_no_word (s : str) : words s = [] → endsWithSpace s = false.
Proof. intros H. unfold endsWithSpace. now rewrite H. Qed.

(** What [replace(/\s+/g, r)] makes of a string: its words joined by [r],
    with one [r] in front when the string begins with whitespace and one
    behind when whitespace follows the last word. *)
Lemma replaceRuns_words (r : N) (s : str) :
  ∀ b, replaceRuns r b s
       = (if negb b && startsWithSpace s then [r] else [])
         ++ joinWith r (words s)
         ++ (if endsWithSpace s then [r] else []).
Proof.
  induction s as [|c s IH]; intros b; [now destruct b|].
  simpl replaceRuns. simpl startsWithSpace.
  destruct (isWhiteSpace c) eqn:E.
  - assert (Ew : words (c :: s) = words s) by (simpl; now rewrite E).
    assert (Ee : endsWithSpace (c :: s) = endsWithSpace s).
    { destruct s as [|d s]; [unfold endsWithSpace; simpl; now rewrite E|].
      destruct (words (d :: s)) eqn:Hw.
      - rewrite !endsWithSpace_no_word; congruence.
      - apply endsWithSpace_cons; congruence. }
    rewrite Ew, Ee, (IH true). simpl. now destruct b.
  - rewrite andb_false_r, (IH false). simpl app at 1.
    destruct s as [|d s]; [simpl; unfold endsWithSpace; simpl; now rewrite E|].
    simpl startsWithSpace.
    destruct (isWhiteSpace d) eqn:Ed.
    + assert (Ew : words (c :: d :: s) = [c] :: words (d :: s))
        by (simpl; now rewrite E, Ed).
      rewrite Ew. simpl andb.
      destruct (words (d :: s)) as [|w ws] eqn:Hw.
      * rewrite (endsWithSpace_no_word (d :: s)) by done. simpl.
        unfold endsWithSpace. rewrite Ew, last_cons_cons.
        apply words_nil in Hw.
        destruct (last (d :: s)) as [y|] eqn:El;
          [|now apply last_None in El].
        apply last_Some_elem_of in El. rewrite Forall_forall in Hw.
        now rewrite (Hw y El).
      * rewrite <- Hw. rewrite <- (endsWithSpace_cons c d s) by congruence.
        rewrite Hw. simpl. done.
    + pose proof (words_nonempty d s Ed) as Hne.
      destruct (words (d :: s)) as [|w ws] eqn:Hw; [done|].
      assert (Ew : words (c :: d :: s) = (c :: w) :: ws).
      { change (words (c :: d :: s))
          with (if isWhiteSpace c then words (d :: s)
                else if isWhiteSpace d then [c] :: words (d :: s)
                     else match words (d :: s) with
                          | w :: ws => (c :: w) :: ws
                          | [] => [[c]]
                          end).
        now rewrite E, Ed, Hw. }
      rewrite Ew, joinWith_cons. simpl.
      rewrite <- (endsWithSpace_cons c d s) by congruence. done.
Qed.

Lemma collapseFrom_replaceRuns (s : str) :
  ∀ b, Gemini.collapseFrom b s = replaceRuns 32 b s.
Proof.
  induction s as [|c s IH]; intros b; simpl; [done|].
  destruct (isWhiteSpace c); [destruct b|]; now rewrite IH.
Qed.

Lemma trimStart_spaces (l r : str) :
  Forall (λ c, isWhiteSpace c = true) l → trimStart (l ++ r) = trimStart r.
Proof.
  induction 1 as [|c l Hc Hl IH]; [done|]. simpl. now rewrite Hc.
Qed.

(** Whitespace around a string with no whitespace at either end is what
    [trim] removes. *)
Lemma trim_padded (l core r : str) :
  Forall (λ c, isWhiteSpace c = true) l →
  Forall (λ c, isWhiteSpace c = true) r →
  trimmed core → trim (l ++ core ++ r) = core.
Proof.
  intros Hl Hr [Hh Hlast]. unfold trim. rewrite (trimStart_spaces l _ Hl).
  destruct core as [|x core].
  - simpl. rewrite <- (app_nil_r r), (trimStart_spaces r [] Hr). done.
  - rewrite (trimStart_id ((x :: core) ++ r))
      by (intros c [= <-]; now apply Hh).
    unfold trimEnd.
    rewrite reverse_app, trimStart_spaces by now apply Forall_reverse.
    rewrite trimStart_id; [apply reverse_involutive|].
    intros c. rewrite head_reverse. apply Hlast.
Qed.

Lemma cleanText_words (t : str) :
  Gemini.cleanText t
  = joinWith 32 (words (filter (λ c, Gemini.isMarkdownChar c = false) t)).
Proof.
  unfold Gemini.cleanText, Gemini.normalizeWhitespace, Gemini.removeMarkdown.
  rewrite collapseFrom_replaceRuns, replaceRuns_words.
  apply trim_padded.
  - destruct (_ && _); now repeat constructor.
  - destruct (endsWithSpace _); now repeat constructor.
  - apply joinWith_trimmed, words_shape.
Qed.

End Separators.

Section MarkdownChars.

Lemma isMarkdownChar_spec (c : N) :
  Gemini.isMarkdownChar c = false ↔ c ∉ [35; 42; 96; 95; 126]%N.
Proof.
  unfold Gemini.isMarkdownChar.
  rewrite !not_elem_of_cons, !orb_false_iff, !N.eqb_neq.
  split.
  - intros ((((H1 & H2) & H3) & H4) & H5). repeat split; try done.
    apply not_elem_of_nil.
  - intros (H1 & H2 & H3 & H4 & H5 & _). done.
Qed.

End MarkdownChars.

(** C10, amended. When a request is sent (an API key is present), its
    prompt is the preamble, an empty line, [Text: ] and the cleaned text,
    with the model and the voice given; without a key nothing is sent. The
    cleaned text is the words of the text without the characters
    [# * ` _ ~], joined by single spaces: every run of whitespace between
    two words has become one space, and whitespace before the first and
    after the last word is gone. So it holds none of those characters, its
    only whitespace is the single space, never two in a row and none at
    either end, and apart from whitespace it holds exactly the code units
    of the text that are not one of those five characters, in order. The
    raw text reaches the request only in this form, which equals it when
    there was nothing to clean. *)
Theorem speech_prompt_is_cleaned_text (key : option str) (t : str)
    (v : TtsVoice) :
  match Gemini.generateSpeechRequest key t v with
  | Some req =>
      Gemini.promptText req
      = js "Read the following text naturally and fluently. Maintain smooth flow between English and Bangla. No robotic pauses."
        ++ [10%N; 10%N] ++ js "Text: " ++ Gemini.cleanText t
      ∧ Gemini.voiceName req = v
      ∧ Gemini.model req = js "gemini-2.5-flash-preview-tts"
  | None => from_option truthy false key = false
  end
  ∧ Gemini.cleanText t
    = joinWith 32 (words (filter (λ c, c ∉ [35; 42; 96; 95; 126]%N) t))
  ∧ Forall (λ c, Gemini.isMarkdownChar c = false) (Gemini.cleanText t)
  ∧ Forall (λ c, isWhiteSpace c = true → c = 32%N) (Gemini.cleanText t)
  ∧ (∀ i, Gemini.cleanText t !! i = Some 32%N →
          Gemini.cleanText t !! S i ≠ Some 32%N)
  ∧ (∀ c, head (Gemini.cleanText t) = Some c → isWhiteSpace c = false)
  ∧ (∀ c, last (Gemini.cleanText t) = Some c → isWhiteSpace c = false)
  ∧ filter (λ c, isWhiteSpace c = false) (Gemini.cleanText t)
    = filter (λ c, isWhiteSpace c = false ∧ Gemini.isMarkdownChar c = false) t
  ∧ Gemini.cleanText (js "# Hello" ++ [9; 10; 160]%N ++ js "*big*  world_ ")
    = js "Hello big world".
Proof.
  split; [|split].
  - unfold Gemini.generateSpeechRequest.
    destruct key as [k|]; [|done]. simpl. now destruct (truthy k).
  - rewrite cleanText_words. do 2 f_equal.
    apply list_filter_iff, isMarkdownChar_spec.
  - unfold Gemini.cleanText, Gemini.normalizeWhitespace, Gemini.removeMarkdown.
    split; [|split; [|split; [|split; [|split; [|split]]]]].
    + apply trim_Forall, collapseFrom_Forall; [done|].
      apply Forall_forall. intros c Hc.
      now apply list_elem_of_filter in Hc as [Hc _].
    + apply trim_Forall, collapseFrom_spaces.
    + intros i Hi Hi'.
      pose proof (trim_singleSpaced _
        (proj1 (collapseFrom_singleSpaced
                  (filter (λ c, Gemini.isMarkdownChar c = false) t) false))
        i _ _ Hi Hi' eq_refl) as Hw.
      discriminate Hw.
    + intros c Hc. unfold trim in Hc. apply trimEnd_head in Hc.
      now apply trimStart_head in Hc.
    + intros c. unfold trim. apply trimEnd_last.
    + rewrite trim_filter, collapseFrom_filter. apply list_filter_filter.
    + vm_compute. reflexivity.
Qed.

Example words_of_padded_title :
  words (js " My  big" ++ [9; 10]%N ++ js "note ")
  = [js "My"; js "big"; js "note"]
  ∧ App.replaceRuns 95 false (js " My  big" ++ [9; 10]%N ++ js "note ")
    = js "_My_big_note_".
Proof. split; vm_compute; reflexivity. Qed.

(** X21. Nothing is exported without a current note. Otherwise the name of
    the exported file is the words of the note's title joined by single
    underscores, with one underscore in front when the title begins with
    whitespace and one behind when whitespace follows its last word,
    followed by [.doc]: every run of whitespace has become one underscore.
    The name holds no whitespace, keeps the other characters of the title
    in order, and is at most four code units longer than the title. *)
Theorem export_name_has_no_whitespace (s : App.NoteState) :
  match App.exportFileName s with
  | Some name =>
      Forall (λ c, isWhiteSpace c = false) name
      ∧ js ".doc" `suffix_of` name
      ∧ ∃ note, App.getCurrentNote s = Some note
                ∧ name
                  = (if startsWithSpace (App.title note) then [95%N] else [])
                    ++ joinWith 95 (words (App.title note))
                    ++ (if endsWithSpace (App.title note) then [95%N] else [])
                    ++ js ".doc"
                ∧ length name ≤ length (App.title note) + 4
                ∧ filter (λ c, isWhiteSpace c = false ∧ c ≠ 95%N) name
                  = filter (λ c, isWhiteSpace c = false ∧ c ≠ 95%N)
                      (App.title note ++ js ".doc")
  | None => App.getCurrentNote s = None
  end.
Proof.
  unfold App.exportFileName.
  destruct (App.getCurrentNote s) as [note|]; [|done].
  split; [|split].
  - apply Forall_app. split; [now apply replaceRuns_no_whitespace|].
    now repeat constructor.
  - now apply suffix_app_r.
  - exists note. split; [done|]. split; [|split].
    + rewrite replaceRuns_words. simpl negb. simpl andb.
      now rewrite <- !app_assoc.
    + rewrite length_app.
      pose proof (replaceRuns_length 95 (App.title note) false).
      simpl. lia.
    + rewrite !filter_app. f_equal. now apply replaceRuns_content.
Qed.
